(** * neo-js storage layer: block linking, transaction expansion, balances

    A shallow embedding of [dist/node/storage.js] (class [Storage]) and
    [dist/node/storage/mongodb.js] (class [MongodbStorage]), and the
    properties of the storage specification checked against it.

    Conventions of the embedding.
    - A JavaScript promise is a cell of type [promise A]: [Pending] until
      the first call of [resolve] or [reject], which settles it for good;
      later calls are ignored.  A promise still [Pending] at the end of an
      operation is one that never settles.
    - The mongoose collections are explicit state ([db]).  The error a
      mongoose callback receives is drawn from an environment ([env]), so
      that every persistence operation can be made to fail.
    - Amounts (the [value] of an output, a fee, a balance) are JavaScript
      numbers: IEEE 754 binary64, the kernel's [float], added and
      subtracted with its rounding.  Block indices, output positions and
      times are integers ([Z]).
    - An operation is followed until the writes it has issued have
      completed, and operations follow one another; interleaving of
      concurrent calls at suspension points is outside the model.  Where
      the code does not wait for a write, its promise settles before the
      write has completed: [Storage.saveBlock_awaited] is the database at
      that moment. *)

From Stdlib Require Import ZArith Lia Floats.
From stdpp Require Import base option list sorting gmap strings.

Open Scope Z_scope.

(** ** Promises *)

Definition error := string.

Inductive promise (A : Type) : Type :=
| Pending
| Resolved (a : A)
| Rejected (e : error).
Arguments Pending {A}.
Arguments Resolved {A} a.
Arguments Rejected {A} e.

(** [resolve(v)] and [reject(err)] of a promise executor: only the first
    call settles the promise. *)
Definition resolve {A} (p : promise A) (a : A) : promise A :=
  match p with Pending => Resolved a | _ => p end.

Definition reject {A} (p : promise A) (e : error) : promise A :=
  match p with Pending => Rejected e | _ => p end.

Definition is_resolved {A} (p : promise A) : bool :=
  match p with Resolved _ => true | _ => false end.

(** [Promise.all] over promises that have run to completion: the values
    in order when all are resolved, a rejection when one is rejected (the
    first in list order), and pending for ever otherwise. *)
Fixpoint first_rejected {A} (ps : list (promise A)) : option error :=
  match ps with
  | [] => None
  | Rejected e :: _ => Some e
  | _ :: ps' => first_rejected ps'
  end.

Fixpoint all_resolved {A} (ps : list (promise A)) : option (list A) :=
  match ps with
  | [] => Some []
  | Resolved a :: ps' => cons a <$> all_resolved ps'
  | _ :: _ => None
  end.

Definition Promise_all {A} (ps : list (promise A)) : promise (list A) :=
  match first_rejected ps with
  | Some e => Rejected e
  | None => match all_resolved ps with
            | Some vs => Resolved vs
            | None => Pending
            end
  end.

(** The calls of [arr.map(f)] where [f] has an effect on the database:
    every call is made, in order, whatever the outcome of the others. *)
Fixpoint run_all {S A B} (f : S → A → B * S) (s : S) (l : list A) : list B * S :=
  match l with
  | [] => ([], s)
  | a :: l' => let '(b, s1) := f s a in
               let '(bs, s2) := run_all f s1 l' in
               (b :: bs, s2)
  end.

(** ** Documents *)

(** An output of a transaction: [{ n, asset, value, address }].  The
    [value] is a number.  (A block as the RPC gives it carries its
    amounts as decimal strings; the embedding takes such a string as the
    number it is read as.) *)
Record voutEntry := VoutEntry {
  out_n : Z;
  out_asset : string;
  out_value : float;
  out_address : string
}.

(** An element of [tx.vin]: a spend reference [{ txid, vout }] as it comes
    from the chain, the output it was replaced by on expansion, or
    [undefined] (what [r.vout[k]] gives when there is no such output). *)
Inductive vinEntry :=
| VRef (txid : string) (vout : Z)
| VOut (o : voutEntry)
| VUndefined.

Record transaction := Transaction {
  tx_txid : string;
  tx_type : string;
  tx_vin : list vinEntry;
  tx_vout : list voutEntry;
  tx_sys_fee : float;
  tx_net_fee : float;
  tx_blockIndex : option Z;
  tx_time : option Z
}.

Record block := Block {
  b_hash : string;
  b_previousblockhash : string;
  b_merkleroot : string;
  b_time : Z;
  b_index : Z;
  b_tx : list transaction
}.

(** An element of [account.assets]: [{ asset, balance, index, type }]. *)
Record assetEntry := AssetEntry {
  e_asset : string;
  e_balance : float;
  e_index : Z;
  e_type : option string
}.

(** A document of the addresses collection.  [a_asset] is set on the
    asset-definition accounts (type ["a"]), the only ones it is read on;
    contract accounts (type ["c"]) carry the empty string. *)
Record account := Account {
  a_address : string;
  a_asset : string;
  a_type : string;
  a_assets : list assetEntry
}.

(** ** The database and its environment *)

(** The three mongoose collections.  Blocks and transactions are the
    documents in the order they were inserted; the addresses collection,
    only ever reached through [address], is a map keyed by it.  The schemas
    declare [index] (blocks), [txid] (transactions) and [address]
    (addresses) unique: saving a second document on the same key fails. *)
Record db := Db {
  blocks : list block;
  transactions : list transaction;
  addresses : gmap string account
}.

(** What lies outside the two source files: [HashHelper.normalize] and the
    error ([None]: no error) that mongoose hands to each callback. *)
Record env := Env {
  normalize : string → string;
  err_findTX : option string → option error;
  err_findTXs : string → string → Z → option error;
  err_findTopBlock : option error;
  err_saveBlock : block → option error;
  err_saveTX : transaction → option error;
  err_updateTX : transaction → option error;
  err_findAddress : string → option error;
  err_saveAddress : account → option error;
  err_updateBalance : string → string → option error;
  err_pushBalance : string → string → option error
}.

(** The errors of the read operations that [env] does not cover. *)
Record reads := Reads {
  err_findBlock : Z → option error;
  err_findBlockByHash : string → option error;
  err_findTopHash : option error
}.

Definition duplicate_key : error := "E11000 duplicate key error".
Definition type_error : error := "TypeError".

(** ** The built-in [parseFloat] *)

(** [parseFloat(x)] where [x] is a number: the number is printed, in the
    shortest decimal form that reads back as [x], and read again.  That
    gives [x] itself, except that minus zero, printed ["0"], becomes
    zero ([-0 == 0] is the one equality of [==] between different numbers);
    [NaN] and the infinities are printed and read back by name. *)
Definition parseFloat (x : float) : float :=
  if (x =? 0)%float then 0%float else x.

(** ** [MongodbStorage]: the data access layer (storage/mongodb.js) *)

Module MongodbStorage.

(** The body shared by the mongoose callbacks:
    [if (err) { reject(err) }  resolve(res)]. *)
Definition callback {A} (err : option error) (res : A) : promise A :=
  let p := match err with Some e => reject Pending e | None => Pending end in
  resolve p res.

(** [delintBlock], on one transaction. *)
Definition delintTX (E : env) (tx : transaction) : transaction :=
  {| tx_txid := normalize E (tx_txid tx);
     tx_type := tx_type tx;
     tx_vin := tx_vin tx;
     tx_vout := map (λ o, {| out_n := out_n o;
                             out_asset := normalize E (out_asset o);
                             out_value := parseFloat (out_value o);
                             out_address := out_address o |}) (tx_vout tx);
     tx_sys_fee := parseFloat (tx_sys_fee tx);
     tx_net_fee := parseFloat (tx_net_fee tx);
     tx_blockIndex := tx_blockIndex tx;
     tx_time := tx_time tx |}.

Definition delintBlock (E : env) (b : block) : block :=
  {| b_hash := normalize E (b_hash b);
     b_previousblockhash := normalize E (b_previousblockhash b);
     b_merkleroot := normalize E (b_merkleroot b);
     b_time := b_time b;
     b_index := b_index b;
     b_tx := map (delintTX E) (b_tx b) |}.

(** [findOne({ txid })]: the first document on that txid. *)
Definition findOne_tx (txid : string) (docs : list transaction) : option transaction :=
  List.find (λ t, bool_decide (tx_txid t = txid)) docs.

(** [update({ txid: tx.txid }, tx)]: the first document on that txid, when
    there is one, is replaced. *)
Fixpoint update_tx (tx : transaction) (docs : list transaction) : list transaction :=
  match docs with
  | [] => []
  | t :: docs' => if bool_decide (tx_txid t = tx_txid tx) then tx :: docs'
                  else t :: update_tx tx docs'
  end.

(** [getTX(txid)].  The argument is [None] when the caller passes
    [undefined]; no document has such a txid. *)
Definition getTX (E : env) (d : db) (txid : option string) : promise (option transaction) :=
  callback (err_findTX E txid) (txid ≫= λ k, findOne_tx k (transactions d)).

(** [findOne({}, 'index').sort({ index: -1 })]: the stored block of
    highest index. *)
Definition findTop (bs : list block) : option block :=
  foldr (λ b acc, match acc with
                  | Some t => if b_index t <? b_index b then Some b else Some t
                  | None => Some b
                  end) None bs.

Definition getBlockCount (E : env) (d : db) : promise Z :=
  let err := err_findTopBlock E in
  let p := match err with Some e => reject Pending e | None => Pending end in
  let res := match err with Some _ => None | None => findTop (blocks d) end in
  let res_index := match res with Some b => b_index b | None => -1 end in
  let height := res_index + 1 in
  resolve p height.

Definition value_bearing (t : string) : bool :=
  bool_decide (t = "ContractTransaction")
  || bool_decide (t = "InvocationTransaction")
  || bool_decide (t = "ClaimTransaction").

Definition vin_address (i : vinEntry) : option string :=
  match i with VOut o => Some (out_address o) | _ => None end.

(** The filter of the query of [getAssetListByAddress]. *)
Definition touches (address assetHash : string) (startBlock : Z) (tx : transaction) : bool :=
  (existsb (λ o, bool_decide (out_address o = address)) (tx_vout tx)
   || existsb (λ i, bool_decide (vin_address i = Some address)) (tx_vin tx))
  && value_bearing (tx_type tx)
  && existsb (λ o, bool_decide (out_asset o = assetHash)) (tx_vout tx)
  && match tx_blockIndex tx with Some bi => startBlock <=? bi | None => false end.

Definition blockIndex_le (a b : transaction) : Prop :=
  default 0 (tx_blockIndex a) ≤ default 0 (tx_blockIndex b).

#[global] Instance blockIndex_le_dec a b : Decision (blockIndex_le a b).
Proof. unfold blockIndex_le. apply _. Defined.

Definition getAssetListByAddress (E : env) (d : db) (address assetHash : string)
    (startBlock : Z) : promise (list transaction) :=
  let found := merge_sort blockIndex_le
                 (List.filter (touches address assetHash startBlock) (transactions d)) in
  callback (err_findTXs E address assetHash startBlock) found.

(** [saveBlock(block)]: [delintBlock] rewrites the caller's block in place
    before the save is tried; the third component is that block. *)
Definition saveBlock (E : env) (d : db) (blk : block) : promise unit * db * block :=
  let blk := delintBlock E blk in
  let err := match err_saveBlock E blk with
             | Some e => Some e
             | None => if decide (b_index blk ∈ map b_index (blocks d))
                       then Some duplicate_key else None
             end in
  (callback err tt,
   match err with
   | Some _ => d
   | None => {| blocks := blocks d ++ [blk];
                transactions := transactions d;
                addresses := addresses d |}
   end,
   blk).

Definition saveTransaction (E : env) (d : db) (tx : transaction) : promise unit * db :=
  let err := match err_saveTX E tx with
             | Some e => Some e
             | None => match findOne_tx (tx_txid tx) (transactions d) with
                       | Some _ => Some duplicate_key
                       | None => None
                       end
             end in
  (callback err tt,
   match err with
   | Some _ => d
   | None => {| blocks := blocks d;
                transactions := transactions d ++ [tx];
                addresses := addresses d |}
   end).

Definition updateTransaction (E : env) (d : db) (tx : transaction) : promise unit * db :=
  let err := err_updateTX E tx in
  (callback err tt,
   match err with
   | Some _ => d
   | None => {| blocks := blocks d;
                transactions := update_tx tx (transactions d);
                addresses := addresses d |}
   end).

Definition getAddress (E : env) (d : db) (hash : string) : promise (option account) :=
  callback (err_findAddress E hash) (addresses d !! hash).

Definition saveAddress (E : env) (d : db) (a : account) : promise unit * db :=
  let err := match err_saveAddress E a with
             | Some e => Some e
             | None => match addresses d !! a_address a with
                       | Some _ => Some duplicate_key
                       | None => None
                       end
             end in
  (callback err tt,
   match err with
   | Some _ => d
   | None => {| blocks := blocks d;
                transactions := transactions d;
                addresses := <[a_address a := a]> (addresses d) |}
   end).

(** The positional update ['assets.$.balance'], ['assets.$.index']: the
    first entry on [assetHash] is rewritten. *)
Fixpoint set_balance (assetHash : string) (balance : float) (index : Z)
    (es : list assetEntry) : list assetEntry :=
  match es with
  | [] => []
  | e :: es' =>
      if bool_decide (e_asset e = assetHash)
      then {| e_asset := e_asset e; e_balance := balance;
              e_index := index; e_type := e_type e |} :: es'
      else e :: set_balance assetHash balance index es'
  end.

Definition with_assets (a : account) (es : list assetEntry) : account :=
  {| a_address := a_address a; a_asset := a_asset a;
     a_type := a_type a; a_assets := es |}.

Definition put_address (d : db) (a : account) : db :=
  {| blocks := blocks d;
     transactions := transactions d;
     addresses := <[a_address a := a]> (addresses d) |}.

(** [updateBalance]: on an error the promise is rejected (and reading
    [res.n] of the missing result throws).  When no entry matched
    ([res.n === 0]) the entry is pushed, and the promise is resolved
    whatever the outcome of that second update. *)
Definition updateBalance (E : env) (d : db) (addressHash assetHash : string)
    (balance : float) (index : Z) : promise unit * db :=
  match err_updateBalance E addressHash assetHash with
  | Some e => (reject Pending e, d)
  | None =>
      match addresses d !! addressHash with
      | Some a =>
          if existsb (λ e, bool_decide (e_asset e = assetHash)) (a_assets a)
          then (resolve Pending tt,
                put_address d (with_assets a (set_balance assetHash balance index (a_assets a))))
          else
            let result := {| e_asset := assetHash; e_balance := balance;
                             e_index := index; e_type := Some "a" |} in
            (resolve Pending tt,
             match err_pushBalance E addressHash assetHash with
             | Some _ => d
             | None => put_address d (with_assets a (a_assets a ++ [result]))
             end)
      | None => (resolve Pending tt, d)
      end
  end.

(** The [while (true)] of the ['data'] handler of [verifyBlocks]:
    [pointer] is incremented until it equals [d.index], every value passed
    on the way being pushed on [missing].  [fuel] bounds the number of
    iterations; [None] is a loop that has not exited within it. *)
Fixpoint scan (fuel : nat) (d_index pointer : Z) (missing : list Z) : option (Z * list Z) :=
  match fuel with
  | O => None
  | S fuel' =>
      let pointer := pointer + 1 in
      if bool_decide (d_index = pointer) then Some (pointer, missing)
      else scan fuel' d_index pointer (missing ++ [pointer])
  end.

(** The handler on one document.  The loop exits after
    [d.index - pointer] iterations when that is positive, and never
    otherwise ([scan_diverges] below): that number is the fuel. *)
Definition on_data (d_index : Z) (st : Z * list Z) : option (Z * list Z) :=
  scan (Z.to_nat (d_index - st.1)) d_index st.1 st.2.

(** The cursor: the ['data'] events in order, then ['end']. *)
Fixpoint cursor (ds : list Z) (st : Z * list Z) : option (list Z) :=
  match ds with
  | [] => Some st.2
  | d :: ds' => match on_data d st with
                | Some st' => cursor ds' st'
                | None => None
                end
  end.

(** [find({ index: { $gte: start, $lte: end } }, 'index').sort('index')] *)
Definition find_indices (d : db) (start end_ : Z) : list Z :=
  merge_sort Z.le (filter (λ i, start ≤ i ∧ i ≤ end_) (map b_index (blocks d))).

(** [verifyBlocks(start, end)]; [None] when a ['data'] handler never
    returns. *)
Definition verifyBlocks (d : db) (start end_ : Z) : option (promise (list Z)) :=
  resolve Pending <$> cursor (find_indices d start end_) (start - 1, []).

(** [getBlock(index)]: [findOne({ index })] *)
Definition getBlock (R : reads) (d : db) (index : Z) : promise (option block) :=
  callback (err_findBlock R index)
           (List.find (λ b, bool_decide (b_index b = index)) (blocks d)).

(** [getBlockByHash(hash)]: [findOne({ hash })] *)
Definition getBlockByHash (R : reads) (d : db) (hash : string) : promise (option block) :=
  callback (err_findBlockByHash R hash)
           (List.find (λ b, bool_decide (b_hash b = hash)) (blocks d)).

(** [getBestBlockHash()]: [findOne({}, 'hash').sort({ index: -1 })].  The
    document found carries its [hash] only. *)
Definition getBestBlockHash (R : reads) (d : db) : promise (option string) :=
  callback (err_findTopHash R) (b_hash <$> findTop (blocks d)).

End MongodbStorage.

(** ** [Storage]: the storage class (storage.js) *)

Module Storage.

(** The properties of a [Storage] object that the operations read and
    write.  [assetsFlat] is not set by the constructor: it is [undefined]
    ([None]) until the first asset list has been loaded. *)
Record storage := Mk {
  blockHeight : Z;
  index : Z;
  unlinkedBlocks : list Z;
  assets : list account;
  assetsFlat : option (list string)
}.

(** The values the constructor assigns. *)
Definition init : storage :=
  {| blockHeight := 0; index := -1; unlinkedBlocks := [];
     assets := []; assetsFlat := None |}.

Definition not_found : error := "Could not find the transaction".

Definition promise_map {A B} (f : A → B) (p : promise A) : promise B :=
  match p with
  | Pending => Pending
  | Resolved a => Resolved (f a)
  | Rejected e => Rejected e
  end.

(** *** getExpandedTX *)

(** [_.has(entry, 'asset')] *)
Definition has_asset (entry : vinEntry) : bool :=
  match entry with VOut _ => true | _ => false end.

(** [_.map(tx.vin, 'txid')], elementwise *)
Definition vin_txid (entry : vinEntry) : option string :=
  match entry with VRef t _ => Some t | _ => None end.

(** [r.vout[k]] *)
Definition nth_out (r : transaction) (k : Z) : vinEntry :=
  if k <? 0 then VUndefined
  else match tx_vout r !! Z.to_nat k with
       | Some o => VOut o
       | None => VUndefined
       end.

(** [r.vout[tx.vin[i].vout]]; [None] when the expression throws a
    TypeError ([r] is [null], or [tx.vin[i]] is [undefined]). *)
Definition spent_output (r : option transaction) (entry : vinEntry) : option vinEntry :=
  match r, entry with
  | None, _ => None
  | Some _, VUndefined => None
  | Some r, VRef _ k => Some (nth_out r k)
  | Some _, VOut _ => Some VUndefined
  end.

Definition set_vin (tx : transaction) (vin : list vinEntry) : transaction :=
  {| tx_txid := tx_txid tx; tx_type := tx_type tx; tx_vin := vin;
     tx_vout := tx_vout tx;
     tx_sys_fee := tx_sys_fee tx; tx_net_fee := tx_net_fee tx;
     tx_blockIndex := tx_blockIndex tx; tx_time := tx_time tx |}.

(** [getExpandedTX(txid)].  The executor does not return after
    [resolve(tx)] or [reject(...)]: the cell [p] records what has settled
    so far.  Every [resolve] passes the one object [tx], so the value of a
    resolved promise is that object as the operation leaves it. *)
Definition getExpandedTX (E : env) (d : db) (txid : string) : promise transaction * db :=
  match MongodbStorage.getTX E d (Some txid) with
  | Rejected e => (reject Pending e, d)
  | Pending => (Pending, d)
  | Resolved None =>
      (* reject(new Error(..)); then [tx.vin] throws into the outer catch *)
      (reject (reject Pending not_found) type_error, d)
  | Resolved (Some tx) =>
      let p := if existsb has_asset (tx_vin tx) then resolve Pending tt else Pending in
      match Promise_all (map (MongodbStorage.getTX E d) (map vin_txid (tx_vin tx))) with
      | Resolved res =>
          match mapM (λ ri, spent_output ri.1 ri.2) (zip res (tx_vin tx)) with
          | Some vin =>
              let tx := set_vin tx vin in
              let '(w, d') := MongodbStorage.updateTransaction E d tx in
              (promise_map (λ _, tx)
                 match w with
                 | Resolved _ => resolve p tt
                 | Rejected _ => resolve p tt   (* despite error, still resolve *)
                 | Pending => p
                 end, d')
          | None => (promise_map (λ _, tx) p, d)  (* thrown in then: catch logs *)
          end
      | _ => (promise_map (λ _, tx) p, d)         (* catch: logger.error only *)
      end
  end.

(** *** getAssetBalance *)

(** One step of [r.vout.forEach]: [balance += output.value] on a match. *)
Definition credit (address asset : string) (balance : float) (output : voutEntry) : float :=
  if bool_decide (out_address output = address) && bool_decide (out_asset output = asset)
  then (balance + out_value output)%float else balance.

(** One step of [r.vin.forEach]: [balance -= input.value] on a match;
    [None] when [input] is [undefined] and reading [input.address]
    throws. *)
Definition debit (address asset : string) (balance : float) (input : vinEntry)
    : option float :=
  match input with
  | VUndefined => None
  | VRef _ _ => Some balance
  | VOut o =>
      Some (if bool_decide (out_address o = address) && bool_decide (out_asset o = asset)
            then (balance - out_value o)%float else balance)
  end.

(** The block under [// Balancing]. *)
Definition balancing (address asset : string) (res : list transaction) (balance : float)
    : option float :=
  foldl (λ acc r, acc ≫= λ balance,
           foldl (λ acc input, acc ≫= λ balance, debit address asset balance input)
                 (Some (foldl (credit address asset) balance (tx_vout r)))
                 (tx_vin r))
        (Some balance) res.

Definition getAssetBalance (E : env) (st : storage) (d : db) (address asset : string)
    (startBlock : option Z) (balance : option float) : promise assetEntry * db :=
  let startBlock := default 0 startBlock in
  let balance := default 0%float balance in
  match MongodbStorage.getAssetListByAddress E d address asset startBlock with
  | Rejected e => (reject Pending e, d)
  | Pending => (Pending, d)
  | Resolved res =>
      let '(ps, d1) := run_all (getExpandedTX E) d (map tx_txid res) in
      match Promise_all ps with
      | Resolved res =>
          match balancing address asset res balance with
          | Some balance =>
              let result := {| e_asset := asset; e_balance := balance;
                               e_index := index st; e_type := Some "a" |} in
              let '(w, d2) := MongodbStorage.updateBalance E d1 address asset balance (index st) in
              (match w with
               | Resolved _ => resolve Pending result
               | _ => Pending                      (* not catching errors *)
               end, d2)
          | None => (reject Pending type_error, d1)
          end
      | Rejected e => (reject Pending e, d1)
      | Pending => (Pending, d1)
      end
  end.

(** *** getBalance *)

(** The value [getBalance] resolves with: [{ address, assets }]. *)
Record balanceSheet := Sheet {
  s_address : string;
  s_assets : list assetEntry
}.

(** The predicate of [_.partition]: [(this.index - asset.index) >= blockAge] *)
Definition needs_update (st : storage) (blockAge : Z) (asset : assetEntry) : bool :=
  blockAge <=? index st - e_index asset.

(** The scan for assets of the registry that the account has no entry for:
    each is pushed on [parts[0]]. *)
Definition add_missing (st : storage) (res : account) (parts0 : list assetEntry) : list assetEntry :=
  let included := map e_asset (a_assets res) in
  foldl (λ parts0 asset,
           if decide (a_asset asset ∈ included) then parts0
           else parts0 ++ [{| e_asset := a_asset asset; e_index := -1;
                              e_balance := 0; e_type := None |}])
        parts0 (assets st).

(** The branch of [getBalance] taken when the account record [res] was
    found.  A failed recomputation is logged and the promise never
    settles. *)
Definition getBalance_found (E : env) (st : storage) (d : db) (address : string)
    (blockAge : Z) (res : account) : promise balanceSheet * db :=
  let parts0 := List.filter (needs_update st blockAge) (a_assets res) in
  let parts1 := List.filter (λ a, negb (needs_update st blockAge a)) (a_assets res) in
  let parts0 := if decide (length (a_assets res) ≠ length (assets st))
                then add_missing st res parts0 else parts0 in
  let '(ps, d1) :=
    run_all (λ d asset, getAssetBalance E st d address (e_asset asset)
                          (Some (e_index asset + 1)) (Some (e_balance asset)))
            d parts0 in
  (match Promise_all ps with
   | Resolved res => resolve Pending {| s_address := address; s_assets := parts1 ++ res |}
   | _ => Pending
   end, d1).

(** [getBalance(address, assets = this.assets, blockAge = 1)].  An
    argument left out is [None].  [fuel] bounds the depth of the retry
    [this.getBalance(address)]; the result is [None] when it is exceeded. *)
Fixpoint getBalance (fuel : nat) (E : env) (st : storage) (d : db) (address : string)
    (assets_arg : option (list account)) (blockAge : option Z)
    : option (promise balanceSheet * db) :=
  match fuel with
  | O => None
  | S fuel' =>
      let assets_arg := default (assets st) assets_arg in   (* read by the logger only *)
      let blockAge := default 1 blockAge in
      match MongodbStorage.getAddress E d address with
      | Rejected e => Some (reject Pending e, d)
      | Pending => Some (Pending, d)
      | Resolved None =>
          let '(w, d1) :=
            MongodbStorage.saveAddress E d
              {| a_address := address; a_asset := ""; a_type := "c"; a_assets := [] |} in
          match w with
          | Resolved _ =>
              match getBalance fuel' E st d1 address None None with
              | Some (Resolved res, d2) => Some (resolve Pending res, d2)
              | Some (_, d2) => Some (Pending, d2)
              | None => None
              end
          | Rejected e => Some (reject Pending e, d1)
          | Pending => Some (Pending, d1)
          end
      | Resolved (Some res) => Some (getBalance_found E st d address blockAge res)
      end
  end.

(** *** getBlockCount *)

Definition getBlockCount (E : env) (st : storage) (d : db) : promise Z * storage :=
  match MongodbStorage.getBlockCount E d with
  | Resolved res =>
      (resolve Pending res,
       {| blockHeight := res; index := res - 1;
          unlinkedBlocks := unlinkedBlocks st;
          assets := assets st; assetsFlat := assetsFlat st |})
  | Rejected e => (reject Pending e, st)
  | Pending => (Pending, st)
  end.

(** The constructor, and the [getBlockCount()] of [initBackgroundTasks]. *)
Definition startup (E : env) (d : db) : promise Z * storage :=
  getBlockCount E init d.

(** *** saveBlock *)

(** [arr.indexOf(x)]; [None] stands for [-1]. *)
Fixpoint indexOf (x : Z) (arr : list Z) : option nat :=
  match arr with
  | [] => None
  | y :: arr' => if bool_decide (y = x) then Some O else S <$> indexOf x arr'
  end.

(** The [while (true)] that links stored blocks: as long as
    [this.index + 1] is among [unlinkedBlocks] it is spliced out and
    [index] and [blockHeight] are incremented.  Every iteration removes an
    element, so the loop has exited after at most
    [unlinkedBlocks.length] iterations ([link_exit] below): that is the
    fuel [link_blocks] gives it. *)
Fixpoint link (fuel : nat) (st : storage) : storage :=
  match fuel with
  | O => st
  | S fuel' =>
      match indexOf (index st + 1) (unlinkedBlocks st) with
      | Some linkIndex =>
          link fuel' {| blockHeight := blockHeight st + 1;
                        index := index st + 1;
                        unlinkedBlocks := delete linkIndex (unlinkedBlocks st);
                        assets := assets st; assetsFlat := assetsFlat st |}
      | None => st
      end
  end.

Definition link_blocks (st : storage) : storage :=
  link (length (unlinkedBlocks st)) st.

(** The update of the chain position once the block is stored. *)
Definition track (st : storage) (newBlock : block) : storage :=
  if index st <? b_index newBlock
  then link_blocks {| blockHeight := blockHeight st; index := index st;
                      unlinkedBlocks := unlinkedBlocks st ++ [b_index newBlock];
                      assets := assets st; assetsFlat := assetsFlat st |}
  else st.

Definition newAsset_of (d : voutEntry) : account :=
  {| a_address := out_asset d; a_asset := out_asset d; a_type := "a"; a_assets := [] |}.

(** One step of [tx.vout.forEach]: an asset that [assetsFlat] does not
    list is added to the registry and saved, the promise of
    [saveAddress] being dropped.  [None] when [this.assetsFlat] is
    [undefined] and [indexOf] throws. *)
Definition discover (E : env) (acc : option (storage * db)) (d : voutEntry)
    : option (storage * db) :=
  '(st, dbs) ← acc;
  flat ← assetsFlat st;
  if decide (out_asset d ∈ flat) then Some (st, dbs)
  else Some ({| blockHeight := blockHeight st; index := index st;
                unlinkedBlocks := unlinkedBlocks st;
                assets := assets st ++ [newAsset_of d];
                assetsFlat := Some (flat ++ [out_asset d]) |},
             (MongodbStorage.saveAddress E dbs (newAsset_of d)).2).

Definition stamp_index (i : Z) (tx : transaction) : transaction :=
  {| tx_txid := tx_txid tx; tx_type := tx_type tx; tx_vin := tx_vin tx;
     tx_vout := tx_vout tx;
     tx_sys_fee := tx_sys_fee tx; tx_net_fee := tx_net_fee tx;
     tx_blockIndex := Some i; tx_time := tx_time tx |}.

Definition stamp_time (t : Z) (tx : transaction) : transaction :=
  {| tx_txid := tx_txid tx; tx_type := tx_type tx; tx_vin := tx_vin tx;
     tx_vout := tx_vout tx;
     tx_sys_fee := tx_sys_fee tx; tx_net_fee := tx_net_fee tx;
     tx_blockIndex := tx_blockIndex tx; tx_time := Some t |}.

(** The callback mapped over [newBlock.tx]:
    [(tx) => {tx.time = newBlock.time; this.dataAccess.saveTransaction(tx);}].
    Its value is [undefined] ([tt]): the promise of [saveTransaction] is
    not returned, so that nothing waits for the write and its outcome is
    lost.  The database is the one the write leaves once it has
    completed. *)
Definition save_tx (E : env) (newBlock : block) (d : db) (tx : transaction) : unit * db :=
  let tx := stamp_time (b_time newBlock) tx in
  (tt, (MongodbStorage.saveTransaction E d tx).2).

(** [saveBlock(newBlock)].  The promise and the [Storage] object are
    those of the moment the promise settles.  The database is the one left
    by the writes the call has issued once they have all completed, in the
    order of the calls; that is later than the promise settles
    ([saveBlock_awaited] below). *)
Definition saveBlock (E : env) (st : storage) (d : db) (newBlock : block)
    : promise (list unit) * storage * db :=
  let '(w, d1, newBlock) := MongodbStorage.saveBlock E d newBlock in
  match w with
  | Rejected e => (reject Pending e, st, d1)
  | Pending => (Pending, st, d1)
  | Resolved _ =>
      let txs := map (stamp_index (b_index newBlock)) (b_tx newBlock) in
      match foldl (λ acc tx, foldl (discover E) acc (tx_vout tx)) (Some (st, d1)) txs with
      | None => (reject Pending type_error, st, d1)
      | Some (st1, d2) =>
          let '(vals, d3) := run_all (save_tx E newBlock) d2 txs in
          match Promise_all (map Resolved vals) with
          | Resolved res => (resolve Pending res, track st1 newBlock, d3)
          | Rejected e => (reject Pending e, st1, d3)
          | Pending => (Pending, st1, d3)
          end
      end
  end.


(** A sequence of [saveBlock] calls, each run to completion, writes
    included, before the next: the outcomes in order and the final
    state. *)
Fixpoint ingest (E : env) (st : storage) (d : db) (bs : list block)
    : list (promise (list unit)) * storage * db :=
  match bs with
  | [] => ([], st, d)
  | b :: bs' => let '(p, st1, d1) := saveBlock E st d b in
                let '(ps, st2, d2) := ingest E st1 d1 bs' in
                (p :: ps, st2, d2)
  end.

(** *** verifyBlocks *)

(** [verifyBlocks(start = 0, end = this.index)] *)
Definition verifyBlocks (st : storage) (d : db) (start end_ : option Z)
    : option (promise (list Z)) :=
  MongodbStorage.verifyBlocks d (default 0 start) (default (index st) end_).

(** *** getAssetTransactions *)




(** *** getBlock, getBestBlockHash *)

Definition getBlock (R : reads) (d : db) (index : Z) : promise (option block) :=
  MongodbStorage.getBlock R d index.

Definition getBlockByHash (R : reads) (d : db) (hash : string) : promise (option block) :=
  MongodbStorage.getBlockByHash R d hash.

(** [getBestBlockHash()]: without a block [resolve(undefined)] comes
    first, and the [res.hash] that follows throws into the catch. *)
Definition getBestBlockHash (R : reads) (d : db) : promise (option string) :=
  match MongodbStorage.getBestBlockHash R d with
  | Resolved None => reject (resolve Pending None) type_error
  | Resolved (Some hash) => resolve Pending (Some hash)
  | Rejected e => reject Pending e
  | Pending => Pending
  end.

End Storage.

(** ** Notions of the specification *)

(** Every block [0..n] is among the ingested indices [seen]. *)
Definition contiguous_upto (seen : list Z) (n : Z) : Prop :=
  ∀ k, 0 ≤ k ≤ n → k ∈ seen.

(** [n] is the largest such index ([-1] when block 0 is missing). *)
Definition largest_contiguous (seen : list Z) (n : Z) : Prop :=
  -1 ≤ n ∧ contiguous_upto seen n ∧ ∀ m, contiguous_upto seen m → m ≤ n.

(** Two [Storage] objects at the same chain position. *)
Definition same_chain (st st' : Storage.storage) : Prop :=
  Storage.index st = Storage.index st'
  ∧ Storage.blockHeight st = Storage.blockHeight st'
  ∧ Storage.unlinkedBlocks st = Storage.unlinkedBlocks st'.

(** What the linker maintains, [seen] being the indices ingested so far. *)
Record linked (seen : list Z) (st : Storage.storage) : Prop := Linked {
  linked_nodup : NoDup (Storage.unlinkedBlocks st);
  linked_unlinked : ∀ k, k ∈ Storage.unlinkedBlocks st ↔ k ∈ seen ∧ Storage.index st < k;
  linked_below : contiguous_upto seen (Storage.index st);
  linked_lower : -1 ≤ Storage.index st;
  linked_height : Storage.blockHeight st = Storage.index st + 1
}.

(** [entry.address == address && entry.asset == asset] *)
Definition matches (address asset : string) (o : voutEntry) : bool :=
  bool_decide (out_address o = address) && bool_decide (out_asset o = asset).

(** The [value]s of the entries whose address and asset both match, in
    the order of the list. *)
Definition amounts (address asset : string) (l : list voutEntry) : list float :=
  map out_value (List.filter (matches address asset) l).

(** The [vin] entries that carry an address, an asset and a value. *)
Definition resolved_vin (tx : transaction) : list voutEntry :=
  omap (λ entry, match entry with VOut o => Some o | _ => None end) (tx_vin tx).

(** The running total of a balance: from [start], transaction after
    transaction, the matching output values are added one by one and then
    the matching input values subtracted one by one, each operation being
    rounded. *)
Definition running_total (address asset : string) (txs : list transaction)
    (start : float) : float :=
  foldl (λ balance tx,
           foldl PrimFloat.sub
                 (foldl PrimFloat.add balance (amounts address asset (tx_vout tx)))
                 (amounts address asset (resolved_vin tx)))
        start txs.




(** The entries of an account carry pairwise different assets. *)
Definition distinct_assets (es : list assetEntry) : Prop :=
  NoDup (map e_asset es).

(** The registry and its flat list agree, and list no asset twice. *)
Definition registry_ok (st : Storage.storage) : Prop :=
  ∃ flat, Storage.assetsFlat st = Some flat
          ∧ map a_asset (Storage.assets st) = flat ∧ NoDup flat.

(** The entry is a reference to the output [o] of a stored transaction. *)
Definition spends (d : db) (entry : vinEntry) (o : voutEntry) : Prop :=
  ∃ t k r, entry = VRef t k
           ∧ MongodbStorage.findOne_tx t (transactions d) = Some r
           ∧ 0 ≤ k ∧ tx_vout r !! Z.to_nat k = Some o.

(** What an expansion leaves alone in a transaction: all but [vin]. *)
Definition tx_body (t : transaction)
    : string * string * list voutEntry * float * float * option Z * option Z :=
  (tx_txid t, tx_type t, tx_vout t, tx_sys_fee t, tx_net_fee t, tx_blockIndex t, tx_time t).

(** ** Concrete inputs *)

(** An environment in which no operation fails and hashes are already
    normal. *)
Definition E0 : env :=
  {| normalize := id;
     err_findTX := λ _, None;
     err_findTXs := λ _ _ _, None;
     err_findTopBlock := None;
     err_saveBlock := λ _, None;
     err_saveTX := λ _, None;
     err_updateTX := λ _, None;
     err_findAddress := λ _, None;
     err_saveAddress := λ _, None;
     err_updateBalance := λ _ _, None;
     err_pushBalance := λ _ _, None |}.

Definition db0 : db := {| blocks := []; transactions := []; addresses := ∅ |}.

(** A block without transactions. *)
Definition block_at (i : Z) : block :=
  {| b_hash := ""; b_previousblockhash := ""; b_merkleroot := "";
     b_time := 0; b_index := i; b_tx := [] |}.

Definition neo_account : account :=
  {| a_address := "neo"; a_asset := "neo"; a_type := "a"; a_assets := [] |}.

Definition gas_account : account :=
  {| a_address := "gas"; a_asset := "gas"; a_type := "a"; a_assets := [] |}.

(** A [Storage] object whose asset list has been loaded. *)
Definition st_ready : Storage.storage :=
  {| Storage.blockHeight := 0; Storage.index := -1; Storage.unlinkedBlocks := [];
     Storage.assets := [neo_account]; Storage.assetsFlat := Some ["neo"] |}.

(** Block 0 with one transaction paying 10 neo to alice. *)
Definition tx_pay : transaction :=
  {| tx_txid := "t1"; tx_type := "ContractTransaction"; tx_vin := [];
     tx_vout := [ {| out_n := 0; out_asset := "neo"; out_value := 10;
                     out_address := "alice" |} ];
     tx_sys_fee := 0; tx_net_fee := 0;
     tx_blockIndex := None; tx_time := None |}.

Definition block_pay : block :=
  {| b_hash := "h0"; b_previousblockhash := ""; b_merkleroot := "m0";
     b_time := 1500; b_index := 0; b_tx := [tx_pay] |}.



(** The save of a transaction fails. *)
Definition E_saveTX_fails : env :=
  {| normalize := id;
     err_findTX := λ _, None;
     err_findTXs := λ _ _ _, None;
     err_findTopBlock := None;
     err_saveBlock := λ _, None;
     err_saveTX := λ _, Some "write failed";
     err_updateTX := λ _, None;
     err_findAddress := λ _, None;
     err_saveAddress := λ _, None;
     err_updateBalance := λ _ _, None;
     err_pushBalance := λ _ _, None |}.

(** Transaction "b" has one output; "c" spends it; "a" refers to an
    output of "b" that does not exist. *)
Definition tx_b : transaction :=
  {| tx_txid := "b"; tx_type := "ContractTransaction"; tx_vin := [];
     tx_vout := [ {| out_n := 0; out_asset := "neo"; out_value := 7;
                     out_address := "alice" |} ];
     tx_sys_fee := 0; tx_net_fee := 0;
     tx_blockIndex := Some 1; tx_time := Some 1500 |}.

Definition tx_c : transaction :=
  {| tx_txid := "c"; tx_type := "ContractTransaction"; tx_vin := [VRef "b" 0];
     tx_vout := [ {| out_n := 0; out_asset := "neo"; out_value := 7;
                     out_address := "bob" |} ];
     tx_sys_fee := 0; tx_net_fee := 0;
     tx_blockIndex := Some 2; tx_time := Some 1600 |}.

Definition tx_a : transaction :=
  {| tx_txid := "a"; tx_type := "ContractTransaction"; tx_vin := [VRef "b" 5];
     tx_vout := [];
     tx_sys_fee := 0; tx_net_fee := 0;
     tx_blockIndex := Some 2; tx_time := Some 1600 |}.

Definition db_spend : db :=
  {| blocks := []; transactions := [tx_b; tx_c]; addresses := ∅ |}.

Definition db_dangling : db :=
  {| blocks := []; transactions := [tx_b; tx_a]; addresses := ∅ |}.

(** Reading transaction "b" fails. *)
Definition E_getTX_fails : env :=
  {| normalize := id;
     err_findTX := λ k, if decide (k = Some "b") then Some "connection lost" else None;
     err_findTXs := λ _ _ _, None;
     err_findTopBlock := None;
     err_saveBlock := λ _, None;
     err_saveTX := λ _, None;
     err_updateTX := λ _, None;
     err_findAddress := λ _, None;
     err_saveAddress := λ _, None;
     err_updateBalance := λ _ _, None;
     err_pushBalance := λ _ _, None |}.

(** "c" once expanded, and the database that holds it. *)
Definition tx_c_expanded : transaction :=
  Storage.set_vin tx_c [VOut {| out_n := 0; out_asset := "neo"; out_value := 7;
                                out_address := "alice" |}].

Definition db_expanded : db :=
  {| blocks := []; transactions := [tx_b; tx_c_expanded]; addresses := ∅ |}.





(** The example of the staleness partition: the chain is at index 100,
    the account of alice has an entry of index 95 and one of index 89. *)
Definition st_100 : Storage.storage :=
  {| Storage.blockHeight := 101; Storage.index := 100; Storage.unlinkedBlocks := [];
     Storage.assets := [neo_account; gas_account];
     Storage.assetsFlat := Some ["neo"; "gas"] |}.

Definition entry_95 : assetEntry :=
  {| e_asset := "neo"; e_balance := 7; e_index := 95; e_type := Some "a" |}.

Definition entry_89 : assetEntry :=
  {| e_asset := "gas"; e_balance := 3; e_index := 89; e_type := Some "a" |}.

Definition alice : account :=
  {| a_address := "alice"; a_asset := ""; a_type := "c";
     a_assets := [entry_95; entry_89] |}.

Definition db_alice : db :=
  {| blocks := []; transactions := [tx_b; tx_c_expanded];
     addresses := {[ "alice" := alice ]} |}.

(** The registry lists neo only; carol has an account without entries. *)
Definition st_neo : Storage.storage :=
  {| Storage.blockHeight := 101; Storage.index := 100; Storage.unlinkedBlocks := [];
     Storage.assets := [neo_account]; Storage.assetsFlat := Some ["neo"] |}.

Definition carol : account :=
  {| a_address := "carol"; a_asset := ""; a_type := "c"; a_assets := [] |}.

Definition db_carol : db :=
  {| blocks := []; transactions := [tx_b; tx_c_expanded];
     addresses := {[ "carol" := carol ]} |}.

(** Blocks 0, 1 and 2 are stored (in the order 2, 0, 1). *)
Definition db_full : db :=
  {| blocks := map block_at [2; 0; 1]; transactions := []; addresses := ∅ |}.

(** Blocks 0, 1, 3, 4 and 5 are stored (in the order 3, 0, 5, 1, 4). *)
Definition db_gap : db :=
  {| blocks := map block_at [3; 0; 5; 1; 4]; transactions := []; addresses := ∅ |}.

(** The write of a balance fails. *)
Definition E_updateBalance_fails : env :=
  {| normalize := id;
     err_findTX := λ _, None;
     err_findTXs := λ _ _ _, None;
     err_findTopBlock := None;
     err_saveBlock := λ _, None;
     err_saveTX := λ _, None;
     err_updateTX := λ _, None;
     err_findAddress := λ _, None;
     err_saveAddress := λ _, None;
     err_updateBalance := λ _ _, Some "write failed";
     err_pushBalance := λ _ _, None |}.

(** The list of the transactions of an address cannot be read. *)
Definition E_findTXs_fails : env :=
  {| normalize := id;
     err_findTX := λ _, None;
     err_findTXs := λ _ _ _, Some "connection lost";
     err_findTopBlock := None;
     err_saveBlock := λ _, None;
     err_saveTX := λ _, None;
     err_updateTX := λ _, None;
     err_findAddress := λ _, None;
     err_saveAddress := λ _, None;
     err_updateBalance := λ _ _, None;
     err_pushBalance := λ _ _, None |}.

(** No read fails. *)
Definition R0 : reads :=
  {| err_findBlock := λ _, None; err_findBlockByHash := λ _, None;
     err_findTopHash := None |}.

(** * Properties *)

Import Storage.

(** Closed goals of the form "no [vin] entry of these transactions is
    [undefined]". *)
Ltac no_undefined :=
  cbv;
  repeat first
    [ apply Forall_nil_2
    | apply Forall_cons_2
    | apply not_elem_of_nil
    | apply not_elem_of_cons; split; [discriminate|] ].

(** ** Block ingestion *)

Lemma indexOf_lookup x arr i : indexOf x arr = Some i → arr !! i = Some x.
Proof.
  revert i. induction arr as [|y arr IH]; intros i; simpl; [done|].
  case_bool_decide as Hy.
  - intros [= <-]. by subst.
  - destruct (indexOf x arr) as [j|] eqn:Hj; simpl; [|done].
    intros [= <-]. by apply IH.
Qed.

Lemma indexOf_None x arr : indexOf x arr = None ↔ x ∉ arr.
Proof.
  induction arr as [|y arr IH]; simpl.
  - split; [intros _; apply not_elem_of_nil|done].
  - case_bool_decide as Hy.
    + subst. split; [done|]. intros []. apply elem_of_cons. by left.
    + rewrite not_elem_of_cons. destruct (indexOf x arr); simpl.
      * split; [done|]. intros [_ H]. by apply IH in H.
      * split; [|done]. intros _. split; [congruence|]. by apply IH.
Qed.

(** The loop has exited when the fuel of [link_blocks] is used up. *)
Lemma link_exit fuel st :
  (length (unlinkedBlocks st) ≤ fuel)%nat →
  indexOf (index (link fuel st) + 1) (unlinkedBlocks (link fuel st)) = None.
Proof.
  revert st. induction fuel as [|fuel IH]; intros st Hlen; simpl.
  - destruct (unlinkedBlocks st); [done|simpl in Hlen; lia].
  - destruct (indexOf (index st + 1) (unlinkedBlocks st)) as [i|] eqn:Hi; [|done].
    apply IH. simpl. apply indexOf_lookup in Hi.
    rewrite length_delete; [|eauto]. lia.
Qed.

Lemma link_linked seen fuel st :
  linked seen st → linked seen (link fuel st).
Proof.
  revert st. induction fuel as [|fuel IH]; intros st Hst; simpl; [done|].
  destruct (indexOf (index st + 1) (unlinkedBlocks st)) as [i|] eqn:Hi; [|done].
  apply IH. apply indexOf_lookup in Hi. destruct Hst as [Hnd Hun Hbelow Hlow Hh].
  pose proof (delete_Permutation _ _ _ Hi) as Hperm.
  assert (NoDup (index st + 1 :: delete i (unlinkedBlocks st))) as Hnd'
    by (by rewrite <- Hperm).
  apply NoDup_cons in Hnd' as [Hnotin Hnd'].
  assert (∀ k, k ∈ unlinkedBlocks st ↔ k = index st + 1 ∨ k ∈ delete i (unlinkedBlocks st)) as Hmem.
  { intros k. rewrite Hperm at 1. apply elem_of_cons. }
  split; simpl; [done| | |lia|lia].
  - intros k. split.
    + intros Hk. assert (k ≠ index st + 1) by (intros ->; done).
      destruct (Hun k) as [H1 _]. destruct H1 as [? ?]; [apply Hmem; by right|].
      split; [done|lia].
    + intros [Hk Hlt]. destruct (Hun k) as [_ H2].
      destruct (proj1 (Hmem k)) as [->|]; [apply H2; split; [done|lia]|lia|done].
  - intros k Hk. destruct (decide (k = index st + 1)) as [->|].
    + apply (Hun (index st + 1)). apply Hmem. by left.
    + apply Hbelow. lia.
Qed.

Lemma track_linked seen st b :
  linked seen st → b_index b ∉ seen → 0 ≤ b_index b →
  linked (seen ++ [b_index b]) (track st b)
  ∧ index (track st b) + 1 ∉ seen ++ [b_index b].
Proof.
  intros Hst Hnew Hpos. unfold track.
  destruct (Z.ltb_spec (index st) (b_index b)) as [Hlt|Hge].
  2:{ destruct Hnew. apply (linked_below _ _ Hst). lia. }
  set (st1 := {| blockHeight := blockHeight st; index := index st;
                 unlinkedBlocks := unlinkedBlocks st ++ [b_index b];
                 assets := assets st; assetsFlat := assetsFlat st |}).
  assert (linked (seen ++ [b_index b]) st1) as Hst1.
  { destruct Hst as [Hnd Hun Hbelow Hlow Hh]. split; simpl; [| | |done|done].
    - apply NoDup_app. split; [done|]. split; [|apply NoDup_singleton].
      intros k Hk ->%list_elem_of_singleton. apply Hun in Hk. tauto.
    - intros k. rewrite !elem_of_app, !list_elem_of_singleton, Hun. split.
      + intros [[? ?]| ->]; split; auto.
      + intros [[?| ->] ?]; auto.
    - intros k Hk. apply elem_of_app. left. by apply Hbelow. }
  unfold link_blocks.
  pose proof (link_linked _ (length (unlinkedBlocks st1)) _ Hst1) as Hl.
  pose proof (link_exit (length (unlinkedBlocks st1)) st1 (le_n _)) as Hexit.
  split; [done|]. intros Hin. apply indexOf_None in Hexit. apply Hexit.
  apply (linked_unlinked _ _ Hl). split; [done|lia].
Qed.

Lemma linked_largest seen st :
  linked seen st → index st + 1 ∉ seen → largest_contiguous seen (index st).
Proof.
  intros Hst Hnext. split; [apply Hst|]. split; [apply Hst|].
  intros m Hm. destruct (Z.le_gt_cases m (index st)) as [|Hgt]; [done|].
  destruct Hnext. apply Hm. pose proof (linked_lower _ _ Hst). lia.
Qed.

Lemma linked_same_chain seen st st' :
  same_chain st st' → linked seen st → linked seen st'.
Proof.
  intros (Hi & Hh & Hu) [Hnd Hun Hbelow Hlow Hhe].
  split; rewrite <- ?Hi, <- ?Hh, <- ?Hu; done.
Qed.

Lemma discover_same_chain E outs acc st1 d1 :
  foldl (discover E) acc outs = Some (st1, d1) →
  ∃ st0 d0, acc = Some (st0, d0) ∧ same_chain st0 st1.
Proof.
  revert acc. induction outs as [|o outs IH]; intros acc; simpl.
  - intros ->. eexists _, _. by split.
  - intros H. apply IH in H as (st' & d' & Hacc & Hsame).
    destruct acc as [[st0 d0]|]; [|done]. simpl in Hacc.
    exists st0, d0. split; [done|].
    destruct (assetsFlat st0) as [flat|]; [|done]. simpl in Hacc.
    case_decide; simplify_eq; [done|].
    destruct Hsame as (? & ? & ?). by split.
Qed.

Lemma discover_all_same_chain E txs acc st1 d1 :
  foldl (λ acc tx, foldl (discover E) acc (tx_vout tx)) acc txs = Some (st1, d1) →
  ∃ st0 d0, acc = Some (st0, d0) ∧ same_chain st0 st1.
Proof.
  revert acc. induction txs as [|tx txs IH]; intros acc; simpl.
  - intros ->. eexists _, _. by split.
  - intros H. apply IH in H as (st' & d' & Hacc & Hsame).
    apply discover_same_chain in Hacc as (st0 & d0 & -> & Hsame0).
    exists st0, d0. split; [done|].
    destruct Hsame as (? & ? & ?), Hsame0 as (? & ? & ?). split; [|split]; congruence.
Qed.

(** A [saveBlock] that resolves has moved the chain position by [track]. *)
Lemma saveBlock_resolved E st d b p st' d' :
  saveBlock E st d b = (p, st', d') → is_resolved p = true →
  ∃ st1, same_chain st st1 ∧ st' = track st1 (MongodbStorage.delintBlock E b).
Proof.
  unfold saveBlock, MongodbStorage.saveBlock. intros H Hp.
  set (b' := MongodbStorage.delintBlock E b) in *.
  destruct (MongodbStorage.callback _ tt) as [|[]|e]; simplify_eq; try done.
  destruct (foldl _ _ _) as [[st1 d2]|] eqn:Hfold; simplify_eq; try done.
  apply discover_all_same_chain in Hfold as (st0 & d0 & ? & Hsame). simplify_eq.
  destruct (run_all _ _ _) as [vals d3].
  destruct (Promise_all _); simplify_eq; try done.
  by exists st1.
Qed.

Lemma ingest_app E st d pre post :
  ingest E st d (pre ++ post) =
  let '(ps1, st1, d1) := ingest E st d pre in
  let '(ps2, st2, d2) := ingest E st1 d1 post in
  (ps1 ++ ps2, st2, d2).
Proof.
  revert st d. induction pre as [|b pre IH]; intros st d; simpl.
  - by destruct (ingest E st d post) as [[??]?].
  - destruct (saveBlock E st d b) as [[p st1] d1]. rewrite IH.
    destruct (ingest E st1 d1 pre) as [[ps1 st2] d2].
    by destruct (ingest E st2 d2 post) as [[??]?].
Qed.

Lemma ingest_linked E bs : ∀ st d seen ps st' d',
  linked seen st → index st + 1 ∉ seen →
  NoDup (seen ++ map b_index bs) →
  Forall (λ b, 0 ≤ b_index b) bs →
  ingest E st d bs = (ps, st', d') →
  Forall (λ p, is_resolved p = true) ps →
  linked (seen ++ map b_index bs) st'
  ∧ index st' + 1 ∉ seen ++ map b_index bs.
Proof.
  induction bs as [|b bs IH]; intros st d seen ps st' d' Hst Hnext Hnd Hpos Hrun Hres.
  - simpl in *. simplify_eq. by rewrite app_nil_r.
  - simpl in Hrun.
    destruct (saveBlock E st d b) as [[p st1] d1] eqn:Hsave.
    destruct (ingest E st1 d1 bs) as [[ps' st2] d2] eqn:Hrest.
    simplify_eq. apply Forall_cons in Hres as [Hp Hres].
    apply Forall_cons in Hpos as [Hb Hpos].
    apply saveBlock_resolved in Hsave as (st0 & Hsame & ->); [|done].
    simpl in Hnd. rewrite cons_middle, app_assoc in Hnd.
    assert (b_index b ∉ seen) as Hfresh.
    { apply NoDup_app in Hnd as (Hnd & _ & _).
      apply NoDup_app in Hnd as (_ & Hnd & _).
      intros Hin. apply (Hnd _ Hin). apply list_elem_of_singleton. done. }
    destruct (track_linked seen st0 (MongodbStorage.delintBlock E b)) as [Hl Hn];
      [by eapply linked_same_chain|done|done|].
    simpl in Hl, Hn.
    replace (seen ++ map b_index (b :: bs)) with ((seen ++ [b_index b]) ++ map b_index bs)
      by (by rewrite <- app_assoc).
    by eapply IH.
Qed.

Lemma elem_of_upto (N : nat) (k : Z) :
  k ∈ map Z.of_nat (seq 0 (S N)) ↔ 0 ≤ k ≤ Z.of_nat N.
Proof.
  rewrite list_elem_of_fmap. split.
  - intros (n & -> & Hn%elem_of_seq). lia.
  - intros Hk. exists (Z.to_nat k). split; [lia|]. apply elem_of_seq. lia.
Qed.

(** C1.  Blocks whose indices are a permutation of [0..N], ingested from
    the initial chain position ([index = -1], no unlinked block) by calls
    that all resolve: at the end [index = N] and [unlinkedBlocks] is empty,
    and after every prefix of the sequence [index] is the largest [n] such
    that every block [0..n] has been ingested. *)
Theorem ingest_permutation E d st0 (N : nat) bs ps st d' :
  same_chain init st0 →
  map b_index bs ≡ₚ map Z.of_nat (seq 0 (S N)) →
  ingest E st0 d bs = (ps, st, d') →
  Forall (λ p, is_resolved p = true) ps →
  index st = Z.of_nat N ∧ blockHeight st = Z.of_nat N + 1 ∧ unlinkedBlocks st = []
  ∧ ∀ pre post, bs = pre ++ post →
      largest_contiguous (map b_index pre) (index (ingest E st0 d pre).1.2).
Proof.
  intros (Hi & Hh & Hu) Hperm Hrun Hres. simpl in Hi, Hh, Hu.
  assert (linked [] st0) as Hst0.
  { split; rewrite <- ?Hi, <- ?Hh, <- ?Hu; try done.
    - apply NoDup_nil_2.
    - intros k. split; [by intros ?%elem_of_nil|by intros [?%elem_of_nil _]].
    - intros k ?. lia. }
  assert (NoDup (map b_index bs)) as Hnd.
  { rewrite Hperm. apply NoDup_fmap_2; [intros ???; lia|apply NoDup_seq]. }
  assert (Forall (λ b, 0 ≤ b_index b) bs) as Hpos.
  { apply Forall_forall. intros b Hb.
    assert (b_index b ∈ map b_index bs) as Hin by (by apply list_elem_of_fmap_2).
    rewrite Hperm in Hin. apply elem_of_upto in Hin. lia. }
  assert (∀ pre post, bs = pre ++ post →
            linked (map b_index pre) (ingest E st0 d pre).1.2
            ∧ index (ingest E st0 d pre).1.2 + 1 ∉ map b_index pre) as Hpre.
  { intros pre post ->. rewrite ingest_app in Hrun.
    destruct (ingest E st0 d pre) as [[ps1 st1] d1] eqn:Hrun1.
    destruct (ingest E st1 d1 post) as [[ps2 st2] d2]. simplify_eq.
    apply Forall_app in Hres as [Hres1 _]. apply Forall_app in Hpos as [Hpos1 _].
    rewrite map_app in Hnd. apply NoDup_app in Hnd as [Hnd _].
    apply (ingest_linked E pre st0 d [] ps1 st1 d1); try done.
    rewrite <- Hi. by intros ?%elem_of_nil. }
  destruct (Hpre bs [] (eq_sym (app_nil_r bs))) as [Hl Hn].
  rewrite Hrun in Hl, Hn. simpl in Hl, Hn.
  destruct Hl as [_ Hun Hbelow Hlow Hhe].
  assert (index st = Z.of_nat N) as HN.
  { assert (Z.of_nat N < index st + 1).
    { destruct (Z.lt_ge_cases (Z.of_nat N) (index st + 1)) as [|Hle]; [done|].
      destruct Hn. rewrite Hperm. apply elem_of_upto. lia. }
    assert (index st ≤ Z.of_nat N); [|lia].
    destruct (Z.le_gt_cases 0 (index st)); [|lia].
    assert (index st ∈ map b_index bs) as Hin by (apply Hbelow; lia).
    rewrite Hperm in Hin. apply elem_of_upto in Hin. lia. }
  split; [done|]. split; [lia|]. split.
  - destruct (unlinkedBlocks st) as [|k l] eqn:Hl; [done|].
    destruct (Hun k) as [[Hin Hlt] _]; [rewrite ?Hl; apply elem_of_cons; by left|].
    rewrite Hperm in Hin. apply elem_of_upto in Hin. lia.
  - intros pre post Hbs. destruct (Hpre pre post Hbs). by apply linked_largest.
Qed.

Lemma ingest_permutation_witness :
  let run := ingest E0 init db0 (map block_at [0; 2; 1]) in
  index run.1.2 = Z.of_nat 2 ∧ blockHeight run.1.2 = Z.of_nat 2 + 1
  ∧ unlinkedBlocks run.1.2 = []
  ∧ ∀ pre post, map block_at [0; 2; 1] = pre ++ post →
      largest_contiguous (map b_index pre) (index (ingest E0 init db0 pre).1.2).
Proof.
  apply (ingest_permutation E0 db0 init 2 (map block_at [0; 2; 1])
           (ingest E0 init db0 (map block_at [0; 2; 1])).1.1 _
           (ingest E0 init db0 (map block_at [0; 2; 1])).2).
  - repeat split.
  - simpl. apply perm_skip, perm_swap.
  - reflexivity.
  - vm_compute. repeat constructor.
Defined.

(** The example of the specification: indices 0, 2, 1. *)
Example ingest_0_2_1 :
  let chain st := (index st, unlinkedBlocks st) in
  chain (ingest E0 init db0 (map block_at [0])).1.2 = (0, [])
  ∧ chain (ingest E0 init db0 (map block_at [0; 2])).1.2 = (0, [2])
  ∧ chain (ingest E0 init db0 (map block_at [0; 2; 1])).1.2 = (2, []).
Proof. by vm_compute. Qed.

(** A failed save of the block rejects [saveBlock] with that error and
    leaves the [Storage] object and the database as they were. *)
Lemma saveBlock_block_failure E st d b e :
  err_saveBlock E (MongodbStorage.delintBlock E b) = Some e →
  saveBlock E st d b = (Rejected e, st, d).
Proof. intros He. unfold saveBlock, MongodbStorage.saveBlock. by rewrite He. Qed.

(** C2, on the code.  Block 0 is saved and the save of its transaction
    fails: [saveBlock] resolves all the same, the chain position has moved
    to the block, and the transaction is not stored. *)
Theorem saveBlock_ignores_saveTransaction_failure :
  let '(p, st, d) := saveBlock E_saveTX_fails st_ready db0 block_pay in
  MongodbStorage.saveTransaction E_saveTX_fails d
    (stamp_time 1500 (stamp_index 0 tx_pay)) = (Rejected "write failed", d)
  ∧ p = Resolved [tt]
  ∧ (index st, blockHeight st, unlinkedBlocks st) = (0, 1, [])
  ∧ transactions d = [].
Proof. vm_compute. repeat split. Qed.

(** ** Promises *)

Lemma Promise_all_Resolved {A} (ps : list (promise A)) vs :
  Promise_all ps = Resolved vs ↔ ps = map Resolved vs.
Proof.
  unfold Promise_all. split.
  - revert vs. induction ps as [|p ps IH]; intros vs; simpl.
    + by intros [= <-].
    + destruct p as [|a|e]; simpl; try done.
      * by destruct (first_rejected ps).
      * destruct (first_rejected ps); [done|].
        destruct (all_resolved ps) as [vs'|]; simpl; [|done].
        intros [= <-]. simpl. f_equal. by apply IH.
  - intros ->. induction vs as [|v vs IH]; simpl; [done|].
    destruct (first_rejected (map Resolved vs)); [done|].
    destruct (all_resolved (map Resolved vs)); by simplify_eq.
Qed.

Lemma Promise_all_Rejected {A} (ps : list (promise A)) e :
  Promise_all ps = Rejected e ↔ first_rejected ps = Some e.
Proof.
  unfold Promise_all. destruct (first_rejected ps).
  - split; by intros [= ->].
  - destruct (all_resolved ps); by split.
Qed.

(** ** Transaction expansion *)

Lemma findOne_tx_txid txid docs t :
  MongodbStorage.findOne_tx txid docs = Some t → tx_txid t = txid.
Proof.
  unfold MongodbStorage.findOne_tx. intros [_ H]%find_some.
  by apply bool_decide_eq_true in H.
Qed.

Lemma findOne_update_tx txid docs t0 tx :
  MongodbStorage.findOne_tx txid docs = Some t0 → tx_txid tx = txid →
  MongodbStorage.findOne_tx txid (MongodbStorage.update_tx tx docs) = Some tx.
Proof.
  unfold MongodbStorage.findOne_tx. intros Hfind <-.
  induction docs as [|t docs IH]; simpl in *; [done|].
  case_bool_decide as Ht; simpl.
  - by rewrite bool_decide_true.
  - rewrite bool_decide_false by done. by apply IH.
Qed.

Lemma update_tx_same docs tx :
  MongodbStorage.findOne_tx (tx_txid tx) docs = Some tx →
  MongodbStorage.update_tx tx docs = docs.
Proof.
  unfold MongodbStorage.findOne_tx.
  induction docs as [|t docs IH]; simpl; [done|].
  case_bool_decide as Ht.
  - by intros [= ->].
  - intros H. f_equal. by apply IH.
Qed.

(** On an entry that carries an asset the fetch is [getTX(undefined)],
    which finds nothing: [r.vout] then throws. *)
Lemma marked_throws E d vin res :
  existsb has_asset vin = true →
  Promise_all (map (MongodbStorage.getTX E d) (map vin_txid vin)) = Resolved res →
  mapM (λ ri, spent_output ri.1 ri.2) (zip res vin) = None.
Proof.
  intros Hsome Hall. apply Promise_all_Resolved in Hall.
  revert res Hall. induction vin as [|entry vin IH]; intros res Hall; [done|].
  destruct res as [|r res]; [done|]. simpl in Hall. injection Hall as Hr Hres.
  simpl in Hsome. apply mapM_None. simpl.
  destruct (has_asset entry) eqn:Hentry; simpl in Hsome.
  - apply Exists_cons_hd. destruct entry; try done. simpl in Hr.
    unfold MongodbStorage.getTX, MongodbStorage.callback in Hr.
    destruct (err_findTX E None); simplify_eq/=. done.
  - apply Exists_cons_tl. apply mapM_None. by apply IH.
Qed.

(** A stored transaction with an entry that carries an asset is returned
    as it is, and nothing is written. *)
Lemma getExpandedTX_marked E d txid tx :
  err_findTX E (Some txid) = None →
  MongodbStorage.findOne_tx txid (transactions d) = Some tx →
  existsb has_asset (tx_vin tx) = true →
  getExpandedTX E d txid = (Resolved tx, d).
Proof.
  intros Herr Hfind Hsome. unfold getExpandedTX, MongodbStorage.getTX at 1.
  rewrite Herr. simpl. rewrite Hfind, Hsome. simpl.
  destruct (Promise_all _) as [|res|e] eqn:Hall; try done.
  by rewrite (marked_throws E d _ res).
Qed.

(** So is one without inputs: the write-back stores what is stored. *)
Lemma getExpandedTX_no_vin E d txid tx :
  err_findTX E (Some txid) = None →
  MongodbStorage.findOne_tx txid (transactions d) = Some tx →
  tx_vin tx = [] →
  getExpandedTX E d txid = (Resolved tx, d).
Proof.
  intros Herr Hfind Hvin. unfold getExpandedTX, MongodbStorage.getTX at 1.
  rewrite Herr. simpl. rewrite Hfind, Hvin. simpl.
  assert (set_vin tx [] = tx) as -> by (destruct tx; simpl in *; by subst).
  unfold MongodbStorage.updateTransaction, MongodbStorage.callback.
  rewrite <- (findOne_tx_txid _ _ _ Hfind) in Hfind.
  destruct (err_updateTX E tx); simpl; [done|].
  rewrite update_tx_same by done. by destruct d.
Qed.

(** What a resolved [getExpandedTX] has done. *)
Lemma getExpandedTX_Resolved E d txid tx1 d1 :
  getExpandedTX E d txid = (Resolved tx1, d1) →
  ∃ tx, err_findTX E (Some txid) = None
    ∧ MongodbStorage.findOne_tx txid (transactions d) = Some tx
    ∧ ((existsb has_asset (tx_vin tx) = true ∧ tx1 = tx ∧ d1 = d)
       ∨ (existsb has_asset (tx_vin tx) = false
          ∧ ∃ res vin,
              Promise_all (map (MongodbStorage.getTX E d) (map vin_txid (tx_vin tx)))
                = Resolved res
              ∧ mapM (λ ri, spent_output ri.1 ri.2) (zip res (tx_vin tx)) = Some vin
              ∧ tx1 = set_vin tx vin
              ∧ d1 = (MongodbStorage.updateTransaction E d tx1).2)).
Proof.
  intros H.
  destruct (err_findTX E (Some txid)) as [e|] eqn:Herr.
  { unfold getExpandedTX, MongodbStorage.getTX at 1 in H. by rewrite Herr in H. }
  destruct (MongodbStorage.findOne_tx txid (transactions d)) as [tx|] eqn:Hfind.
  2:{ unfold getExpandedTX, MongodbStorage.getTX at 1 in H.
      rewrite Herr in H. simpl in H. by rewrite Hfind in H. }
  exists tx. split; [done|]. split; [done|].
  destruct (existsb has_asset (tx_vin tx)) eqn:Hsome.
  - left. rewrite (getExpandedTX_marked E d txid tx) in H by done. by simplify_eq.
  - right. split; [done|].
    unfold getExpandedTX, MongodbStorage.getTX at 1 in H.
    rewrite Herr in H. simpl in H. rewrite Hfind, Hsome in H.
    destruct (Promise_all _) as [|res|e] eqn:Hres; [by simplify_eq/=| |by simplify_eq/=].
    destruct (mapM _ _) as [vin|] eqn:Hvin; [|by simplify_eq/=].
    exists res, vin. split; [done|]. split; [done|].
    unfold MongodbStorage.updateTransaction, MongodbStorage.callback in *.
    destruct (err_updateTX E (set_vin tx vin)) eqn:Hw; simpl in H; simplify_eq;
      by rewrite Hw.
Qed.

(** C3, as the code has it.  A stored transaction in which every [vin]
    entry carries an asset is returned unchanged.  When an expansion
    resolves with a transaction that has no [vin] entry or has one that
    carries an asset, a second expansion resolves with the same
    transaction and changes nothing. *)
Theorem expansion_idempotent E d txid tx :
  err_findTX E (Some txid) = None →
  MongodbStorage.findOne_tx txid (transactions d) = Some tx →
  (Forall (λ entry, has_asset entry = true) (tx_vin tx) →
   getExpandedTX E d txid = (Resolved tx, d))
  ∧ (∀ tx1 d1,
       getExpandedTX E d txid = (Resolved tx1, d1) →
       tx_vin tx1 = [] ∨ existsb has_asset (tx_vin tx1) = true →
       getExpandedTX E d1 txid = (Resolved tx1, d1)).
Proof.
  intros Herr Hfind. split.
  - intros Hall. destruct (tx_vin tx) as [|entry vin] eqn:Hvin.
    + by apply getExpandedTX_no_vin.
    + apply getExpandedTX_marked; [done..|]. rewrite Hvin. simpl.
      apply Forall_cons in Hall as [-> _]. done.
  - intros tx1 d1 Hfirst Hmark.
    destruct (getExpandedTX_Resolved _ _ _ _ _ Hfirst)
      as (tx' & _ & Hfind' & [(Hsome & -> & ->)|(Hnone & res & vin & Hres & Hvin & Htx1 & Hd1)]);
      [done|].
    rewrite Hfind in Hfind'. injection Hfind' as <-.
    unfold MongodbStorage.updateTransaction in Hd1.
    destruct (err_updateTX E tx1) eqn:Hupd; simpl in Hd1; [subst d1; exact Hfirst|].
    assert (MongodbStorage.findOne_tx txid (transactions d1) = Some tx1) as Hfind1.
    { subst d1. simpl. eapply findOne_update_tx; [done|].
      subst tx1. simpl. by eapply findOne_tx_txid. }
    destruct Hmark; [by apply getExpandedTX_no_vin|by apply getExpandedTX_marked].
Qed.

Lemma expansion_idempotent_witness :
  let tx_c' := set_vin tx_c [VOut {| out_n := 0; out_asset := "neo"; out_value := 7;
                                     out_address := "alice" |}] in
  let db' := {| blocks := []; transactions := [tx_b; tx_c']; addresses := ∅ |} in
  getExpandedTX E0 db_spend "c" = (Resolved tx_c', db')
  ∧ getExpandedTX E0 db' "c" = (Resolved tx_c', db').
Proof.
  intros tx_c' db'.
  assert (getExpandedTX E0 db_spend "c" = (Resolved tx_c', db')) as Hfirst
    by reflexivity.
  split; [done|].
  apply (expansion_idempotent E0 db_spend "c" tx_c eq_refl eq_refl);
    [exact Hfirst|by right].
Defined.

(** The claim of C3 as it is stated fails: "a" refers to an output that
    "b" does not have; its expansion resolves, with an [undefined] entry,
    and the second expansion never settles. *)
Lemma expansion_not_idempotent :
  ¬ ∀ E d txid tx1 d1,
      getExpandedTX E d txid = (Resolved tx1, d1) →
      (getExpandedTX E d1 txid).1 = Resolved tx1.
Proof.
  intros H.
  specialize (H E0 db_dangling "a" (set_vin tx_a [VUndefined])
                {| blocks := []; transactions := [tx_b; set_vin tx_a [VUndefined]];
                   addresses := ∅ |} eq_refl).
  vm_compute in H. discriminate H.
Qed.

(** A failed write-back is swallowed: the expanded transaction is
    returned and nothing is stored. *)
Lemma getExpandedTX_write_back_failure E d txid tx res vin e :
  err_findTX E (Some txid) = None →
  MongodbStorage.findOne_tx txid (transactions d) = Some tx →
  existsb has_asset (tx_vin tx) = false →
  Promise_all (map (MongodbStorage.getTX E d) (map vin_txid (tx_vin tx))) = Resolved res →
  mapM (λ ri, spent_output ri.1 ri.2) (zip res (tx_vin tx)) = Some vin →
  err_updateTX E (set_vin tx vin) = Some e →
  getExpandedTX E d txid = (Resolved (set_vin tx vin), d).
Proof.
  intros Herr Hfind Hsome Hres Hvin Hupd.
  unfold getExpandedTX, MongodbStorage.getTX at 1.
  rewrite Herr. simpl. rewrite Hfind, Hsome, Hres, Hvin.
  unfold MongodbStorage.updateTransaction, MongodbStorage.callback.
  by rewrite Hupd.
Qed.

(** C4, on the code.  When the fetch of a transaction referred to by a
    [vin] entry fails, [getExpandedTX] neither rejects nor resolves: the
    error is logged and the promise never settles. *)
Theorem getExpandedTX_fetch_failure E d txid tx e :
  err_findTX E (Some txid) = None →
  MongodbStorage.findOne_tx txid (transactions d) = Some tx →
  existsb has_asset (tx_vin tx) = false →
  Promise_all (map (MongodbStorage.getTX E d) (map vin_txid (tx_vin tx))) = Rejected e →
  getExpandedTX E d txid = (Pending, d).
Proof.
  intros Herr Hfind Hsome Hres.
  unfold getExpandedTX, MongodbStorage.getTX at 1.
  rewrite Herr. simpl. by rewrite Hfind, Hsome, Hres.
Qed.

Lemma getExpandedTX_fetch_failure_witness :
  MongodbStorage.getTX E_getTX_fails db_spend (Some "b") = Rejected "connection lost"
  ∧ getExpandedTX E_getTX_fails db_spend "c" = (Pending, db_spend).
Proof.
  split; [reflexivity|].
  apply (getExpandedTX_fetch_failure E_getTX_fails db_spend "c" tx_c "connection lost");
    reflexivity.
Defined.

(** ** Balances *)

Lemma credit_fold address asset outs balance :
  foldl (credit address asset) balance outs
  = foldl PrimFloat.add balance (amounts address asset outs).
Proof.
  unfold amounts. revert balance.
  induction outs as [|o outs IH]; intros balance; [done|].
  cbn [foldl List.filter]. rewrite IH. unfold credit, matches.
  by destruct (bool_decide (out_address o = address) && bool_decide (out_asset o = asset)).
Qed.

Lemma debit_fold address asset ins balance :
  VUndefined ∉ ins →
  foldl (λ acc input, acc ≫= λ balance, debit address asset balance input)
        (Some balance) ins
  = Some (foldl PrimFloat.sub balance
            (amounts address asset
               (omap (λ entry, match entry with VOut o => Some o | _ => None end) ins))).
Proof.
  unfold amounts. revert balance.
  induction ins as [|i ins IH]; intros balance Hdef; [done|].
  apply not_elem_of_cons in Hdef as [Hi Hdef].
  destruct i as [t k|o|]; [| |done]; cbn [foldl mbind option_bind debit].
  - rewrite IH by done. done.
  - rewrite IH by done. unfold omap; cbn [list_omap List.filter]. unfold matches.
    by destruct (bool_decide (out_address o = address) && bool_decide (out_asset o = asset)).
Qed.

(** The fold under [// Balancing] is the running total: non-matching
    entries and unexpanded references leave the balance as it is. *)
Lemma balancing_running_total address asset txs balance :
  Forall (λ tx, VUndefined ∉ tx_vin tx) txs →
  balancing address asset txs balance = Some (running_total address asset txs balance).
Proof.
  unfold balancing, running_total.
  revert balance. induction txs as [|tx txs IH]; intros balance Hdef; [done|].
  apply Forall_cons in Hdef as [Htx Hdef].
  cbn [foldl mbind option_bind]. rewrite debit_fold by done.
  rewrite IH by done. by rewrite credit_fold.
Qed.




Lemma run_all_Resolved {S A B} (f : S → A → promise B * S) l : ∀ s ps s1 rs,
  run_all f s l = (ps, s1) → Promise_all ps = Resolved rs →
  Forall2 (λ a r, ∃ s' s'', f s' a = (Resolved r, s'')) l rs.
Proof.
  induction l as [|a l IH]; intros s ps s1 rs Hrun Hall; simpl in Hrun.
  - simplify_eq. apply Promise_all_Resolved in Hall. destruct rs; [constructor|done].
  - destruct (f s a) as [p s'] eqn:Hf.
    destruct (run_all f s' l) as [ps' s''] eqn:Hrest. simplify_eq.
    apply Promise_all_Resolved in Hall. destruct rs as [|r rs]; [done|].
    simpl in Hall. injection Hall as -> Hps. constructor.
    + by exists s, s'.
    + eapply IH; [done|]. by apply Promise_all_Resolved.
Qed.

Lemma add_missing_app st res parts0 :
  add_missing st res parts0 = parts0 ++ add_missing st res [].
Proof.
  unfold add_missing. generalize (assets st). intros l. revert parts0.
  induction l as [|a l IH]; intros parts0; simpl.
  - by rewrite app_nil_r.
  - case_decide; [apply IH|]. rewrite IH, (IH [_]). by rewrite app_assoc.
Qed.




(** C7, on the code.  The [assets] argument of [getBalance] is not read:
    the result is the same whatever is passed.  Asked for gas only, with a
    registry that lists neo only, [getBalance] resolves with a balance for
    neo and none for gas. *)
Theorem getBalance_ignores_assets_argument :
  (∀ fuel E st d address assets1 assets2 blockAge,
     getBalance fuel E st d address assets1 blockAge
     = getBalance fuel E st d address assets2 blockAge)
  ∧ (getBalance 1 E0 st_neo db_carol "carol" (Some [gas_account]) None) ≫= (λ r,
       match r.1 with Resolved sheet => Some sheet | _ => None end)
    = Some {| s_address := "carol";
              s_assets := [ {| e_asset := "neo"; e_balance := 0; e_index := 100;
                               e_type := Some "a" |} ] |}.
Proof.
  split; [|by vm_compute].
  intros [|fuel] E st d address assets1 assets2 blockAge; reflexivity.
Qed.

Lemma getBalance_found_not_rejected E st d address blockAge res e d1 :
  getBalance_found E st d address blockAge res ≠ (Rejected e, d1).
Proof.
  unfold getBalance_found. destruct (run_all _ _ _) as [ps d'].
  by destruct (Promise_all ps).
Qed.

(** C10.  For an address without account record, [getBalance] saves the
    empty record and calls [this.getBalance(address)]: whatever [assets]
    and [blockAge] the caller passed, the outcome is that of [getBalance]
    on the new record with the registry and [blockAge = 1], and the retry
    is not repeated. *)
Theorem getBalance_retry_defaults E st d address assets_arg blockAge fuel d1 :
  MongodbStorage.getAddress E d address = Resolved None →
  MongodbStorage.saveAddress E d
    {| a_address := address; a_asset := ""; a_type := "c"; a_assets := [] |}
    = (Resolved tt, d1) →
  getBalance (S (S fuel)) E st d address assets_arg blockAge
    = getBalance (S fuel) E st d1 address (Some (assets st)) (Some 1)
  ∧ getBalance (S fuel) E st d1 address (Some (assets st)) (Some 1)
    = Some (getBalance_found E st d1 address 1
              {| a_address := address; a_asset := ""; a_type := "c"; a_assets := [] |}).
Proof.
  intros Hget Hsave.
  assert (err_findAddress E address = None) as Herr.
  { unfold MongodbStorage.getAddress, MongodbStorage.callback in Hget.
    by destruct (err_findAddress E address). }
  assert (MongodbStorage.getAddress E d1 address
          = Resolved (Some {| a_address := address; a_asset := ""; a_type := "c";
                              a_assets := [] |})) as Hget1.
  { unfold MongodbStorage.saveAddress, MongodbStorage.callback in Hsave.
    unfold MongodbStorage.getAddress, MongodbStorage.callback. rewrite Herr. simpl.
    destruct (match err_saveAddress E _ with Some e => Some e | None => _ end);
      simplify_eq/=. by rewrite lookup_insert_eq. }
  assert (∀ a b, getBalance (S fuel) E st d1 address a (Some b)
                 = Some (getBalance_found E st d1 address b
                           {| a_address := address; a_asset := ""; a_type := "c";
                              a_assets := [] |})) as Hfound.
  { intros a b. simpl. by rewrite Hget1. }
  split; [|apply Hfound].
  change (getBalance (S (S fuel)) E st d address assets_arg blockAge)
    with (match MongodbStorage.getAddress E d address with
          | Rejected e => Some (reject Pending e, d)
          | Pending => Some (Pending, d)
          | Resolved None =>
              let '(w, d1) :=
                MongodbStorage.saveAddress E d
                  {| a_address := address; a_asset := ""; a_type := "c"; a_assets := [] |} in
              match w with
              | Resolved _ =>
                  match getBalance (S fuel) E st d1 address None None with
                  | Some (Resolved res, d2) => Some (resolve Pending res, d2)
                  | Some (_, d2) => Some (Pending, d2)
                  | None => None
                  end
              | Rejected e => Some (reject Pending e, d1)
              | Pending => Some (Pending, d1)
              end
          | Resolved (Some res) =>
              Some (getBalance_found E st d address (default 1 blockAge) res)
          end).
  rewrite Hget, Hsave.
  change (getBalance (S fuel) E st d1 address None None)
    with (getBalance (S fuel) E st d1 address (Some (assets st)) (Some 1)).
  rewrite Hfound.
  destruct (getBalance_found E st d1 address 1 _) as [[|r|e] d2] eqn:Hf; try done.
  by apply getBalance_found_not_rejected in Hf.
Qed.

Lemma getBalance_retry_defaults_witness :
  getBalance 2 E0 st_neo db_carol "dave" (Some [gas_account]) (Some 50)
  = getBalance 1 E0 st_neo
      {| blocks := []; transactions := [tx_b; tx_c_expanded];
         addresses := <["dave" := {| a_address := "dave"; a_asset := ""; a_type := "c";
                                     a_assets := [] |}]> {[ "carol" := carol ]} |}
      "dave" (Some [neo_account]) (Some 1).
Proof.
  apply (getBalance_retry_defaults E0 st_neo db_carol "dave"
           (Some [gas_account]) (Some 50) 0); reflexivity.
Defined.

(** ** Verification of the stored blocks *)

(** The loop of the ['data'] handler exits when [d.index] is ahead of
    the pointer, having pushed the indices in between ... *)
Lemma scan_exits d_index pointer missing fuel :
  pointer < d_index → (Z.to_nat (d_index - pointer) ≤ fuel)%nat →
  MongodbStorage.scan fuel d_index pointer missing
  = Some (d_index, missing ++ seqZ (pointer + 1) (d_index - pointer - 1)).
Proof.
  revert pointer missing. induction fuel as [|fuel IH]; intros pointer missing Hlt Hfuel.
  - lia.
  - simpl. case_bool_decide as Heq.
    + rewrite <- Heq. rewrite seqZ_nil by lia. by rewrite app_nil_r.
    + rewrite IH by lia. rewrite <- app_assoc. do 3 f_equal. simpl.
      rewrite (seqZ_cons (pointer + 1)) by lia. do 2 f_equal; lia.
Qed.

(** ... and never exits otherwise, whatever the fuel. *)
Lemma scan_diverges d_index pointer missing fuel :
  d_index ≤ pointer → MongodbStorage.scan fuel d_index pointer missing = None.
Proof.
  revert pointer missing. induction fuel as [|fuel IH]; intros pointer missing Hle; [done|].
  simpl. rewrite bool_decide_false by lia. apply IH. lia.
Qed.

Lemma seqZ_sorted n : ∀ m, StronglySorted Z.lt (seqZ m n).
Proof.
  destruct (Z.le_gt_cases n 0) as [Hn|Hn].
  { intros m. rewrite seqZ_nil by done. constructor. }
  rewrite <- (Z2Nat.id n) by lia. clear Hn.
  induction (Z.to_nat n) as [|j IH]; intros m.
  - rewrite seqZ_nil by lia. constructor.
  - rewrite seqZ_cons by lia.
    replace (Z.pred (Z.of_nat (S j))) with (Z.of_nat j) by lia.
    constructor; [apply IH|].
    apply Forall_forall. intros x Hx%elem_of_seqZ. lia.
Qed.

(** The cursor over stored indices in increasing order, all ahead of the
    pointer: every ['data'] handler returns, and what is pushed is, in
    increasing order, every index between the pointer and the last
    document that no document carries. *)
Lemma cursor_gaps ds : ∀ pointer missing,
  StronglySorted Z.lt (pointer :: ds) →
  ∃ gaps,
    MongodbStorage.cursor ds (pointer, missing) = Some (missing ++ gaps)
    ∧ StronglySorted Z.lt (pointer :: gaps)
    ∧ ∀ k, k ∈ gaps ↔ (pointer < k ∧ (k ∉ ds) ∧ (∃ i, i ∈ ds ∧ k < i)).
Proof.
  induction ds as [|d ds IH]; intros pointer missing Hsorted.
  - exists []. split; [by rewrite app_nil_r|]. split; [done|].
    intros k. split; [by intros ?%elem_of_nil|]. by intros (_ & _ & i & ?%elem_of_nil & _).
  - apply StronglySorted_inv in Hsorted as [Hds Hall].
    apply Forall_cons in Hall as [Hlt Hall].
    pose proof Hds as Hds'. apply StronglySorted_inv in Hds' as [_ Hd].
    destruct (IH d (missing ++ seqZ (pointer + 1) (d - pointer - 1)) Hds)
      as (gaps & Hrun & Hsort & Hgaps).
    exists (seqZ (pointer + 1) (d - pointer - 1) ++ gaps).
    simpl. unfold MongodbStorage.on_data. simpl.
    rewrite scan_exits by (done || lia). rewrite Hrun, <- app_assoc.
    split; [done|]. split.
    + apply StronglySorted_inv in Hsort as [Hsg Hdg].
      rewrite Forall_forall in Hdg. constructor.
      * apply StronglySorted_app_2; [|apply seqZ_sorted|done].
        intros x1 x2 Hx1%elem_of_seqZ Hx2. specialize (Hdg _ Hx2). lia.
      * apply Forall_app. split; apply Forall_forall.
        -- intros x Hx%elem_of_seqZ. lia.
        -- intros x Hx. specialize (Hdg _ Hx). lia.
    + intros k. rewrite elem_of_app, elem_of_seqZ, Hgaps.
      rewrite Forall_forall in Hd. split.
      * intros [Hk|(Hk & Hnot & i & Hi & Hki)].
        -- split; [lia|]. split; [|exists d; split; [apply elem_of_cons; by left|lia]].
           intros [->|Hin]%elem_of_cons; [lia|]. specialize (Hd _ Hin). lia.
        -- split; [lia|]. split; [|exists i; split; [apply elem_of_cons; by right|done]].
           intros [->|Hin]%elem_of_cons; [lia|done].
      * intros (Hk & Hnot & i & [->|Hi]%elem_of_cons & Hki).
        -- left. lia.
        -- destruct (Z.lt_ge_cases k d) as [|Hge]; [left; lia|].
           right. split; [|split; [|by exists i]].
           ++ destruct (decide (k = d)) as [->|]; [|lia].
              destruct Hnot. apply elem_of_cons. by left.
           ++ intros Hin. apply Hnot. apply elem_of_cons. by right.
Qed.

Lemma sorted_nodup_strict (l : list Z) :
  StronglySorted Z.le l → NoDup l → StronglySorted Z.lt l.
Proof.
  induction 1 as [|x l Hl IH Hx]; intros Hnd; [constructor|].
  apply NoDup_cons in Hnd as [Hnotin Hnd]. constructor; [by apply IH|].
  rewrite Forall_forall in Hx. apply Forall_forall. intros y Hy.
  specialize (Hx _ Hy). destruct (decide (x = y)) as [->|]; [done|lia].
Qed.

Lemma elem_of_find_indices d start end_ i :
  i ∈ MongodbStorage.find_indices d start end_
  ↔ i ∈ map b_index (blocks d) ∧ start ≤ i ∧ i ≤ end_.
Proof.
  unfold MongodbStorage.find_indices.
  rewrite merge_sort_Permutation, list_elem_of_filter. tauto.
Qed.

(** C8.  The index of a block being unique, [verifyBlocks(start, end)]
    resolves with, in increasing order, exactly the indices from [start]
    on that are not stored and lie before a stored index of the range:
    nothing beyond the last stored block of the range is reported, whether
    or not it reaches [end].  Over the stored indices 0, 1, 3, 4, 5 the
    ranges [0, 5] and [0, 9] both give [2]. *)
Theorem verifyBlocks_missing d start end_ :
  NoDup (map b_index (blocks d)) →
  (∃ missing,
     MongodbStorage.verifyBlocks d start end_ = Some (Resolved missing)
     ∧ StronglySorted Z.lt missing
     ∧ ∀ k, k ∈ missing ↔
         (start ≤ k ∧ (k ∉ map b_index (blocks d))
          ∧ (∃ i, i ∈ map b_index (blocks d) ∧ k < i ∧ i ≤ end_)))
  ∧ MongodbStorage.verifyBlocks db_gap 0 5 = Some (Resolved [2])
  ∧ MongodbStorage.verifyBlocks db_gap 0 9 = Some (Resolved [2]).
Proof.
  intros Hnd. split; [|by vm_compute].
  set (found := MongodbStorage.find_indices d start end_).
  assert (StronglySorted Z.lt (start - 1 :: found)) as Hsorted.
  { constructor.
    - apply sorted_nodup_strict.
      + apply StronglySorted_merge_sort; apply _.
      + unfold found, MongodbStorage.find_indices.
        rewrite merge_sort_Permutation. by apply NoDup_filter.
    - apply Forall_forall. intros i [_ ?]%elem_of_find_indices. lia. }
  destruct (cursor_gaps found (start - 1) [] Hsorted) as (gaps & Hrun & Hsg & Hgaps).
  exists gaps. unfold MongodbStorage.verifyBlocks. fold found. rewrite Hrun.
  split; [done|]. split; [by apply StronglySorted_inv in Hsg as [? _]|].
  intros k. rewrite Hgaps. unfold found. split.
  - intros (Hk & Hnot & i & Hi%elem_of_find_indices & Hki).
    split; [lia|]. split; [|exists i; split; [tauto|lia]].
    intros Hin. apply Hnot. apply elem_of_find_indices. split; [done|lia].
  - intros (Hk & Hnot & i & Hi & Hki & Hend).
    split; [lia|].
    split; [|exists i; split; [apply elem_of_find_indices; split; [done|lia]|done]].
    intros Hin%elem_of_find_indices. tauto.
Qed.

Lemma verifyBlocks_missing_witness :
  ∃ missing,
    MongodbStorage.verifyBlocks db_gap 0 9 = Some (Resolved missing)
    ∧ StronglySorted Z.lt missing
    ∧ ∀ k, k ∈ missing ↔
        (0 ≤ k ∧ (k ∉ map b_index (blocks db_gap))
         ∧ (∃ i, i ∈ map b_index (blocks db_gap) ∧ k < i ∧ i ≤ 9)).
Proof.
  apply (verifyBlocks_missing db_gap 0 9).
  apply (bool_decide_unpack _). by vm_compute.
Defined.

(** ** The stored block count *)

Lemma findTop_nil bs : MongodbStorage.findTop bs = None ↔ bs = [].
Proof.
  destruct bs as [|b bs]; simpl; [done|]. split; [|done].
  destruct (MongodbStorage.findTop bs) as [t|]; [|done].
  by destruct (b_index t <? b_index b).
Qed.

Lemma findTop_max bs t :
  MongodbStorage.findTop bs = Some t →
  t ∈ bs ∧ ∀ b, b ∈ bs → b_index b ≤ b_index t.
Proof.
  revert t. induction bs as [|b bs IH]; intros t; simpl; [done|].
  destruct (MongodbStorage.findTop bs) as [t'|] eqn:Htop.
  - destruct (IH t' eq_refl) as [Hin Hmax].
    destruct (Z.ltb_spec (b_index t') (b_index b)); intros [= <-].
    + split; [apply elem_of_cons; by left|].
      intros b' [->|Hb']%elem_of_cons; [lia|]. specialize (Hmax _ Hb'). lia.
    + split; [apply elem_of_cons; by right|].
      intros b' [->|Hb']%elem_of_cons; [lia|by apply Hmax].
  - apply findTop_nil in Htop as ->. intros [= <-].
    split; [apply elem_of_cons; by left|].
    intros b' [->|Hb']%elem_of_cons; [lia|by apply elem_of_nil in Hb'].
Qed.

(** The claim of C9 as it is stated fails: with the blocks 0, 1, 3, 4 and
    5 stored, [getBlockCount] resolves with 6, not with their number. *)
Lemma getBlockCount_not_count :
  ¬ ∀ E d, err_findTopBlock E = None →
      MongodbStorage.getBlockCount E d = Resolved (Z.of_nat (length (blocks d))).
Proof.
  intros H. specialize (H E0 db_gap eq_refl). vm_compute in H. discriminate H.
Qed.

(** C9, as the code has it.  [getBlockCount] resolves with the highest
    stored index plus one, 0 when no block is stored; that is the number
    of stored blocks when their indices are exactly [0..n-1].  At startup
    (and at every later call) [index] is set to that value minus one and
    [blockHeight] to that value. *)
Theorem getBlockCount_height E st d :
  err_findTopBlock E = None →
  ∃ height st',
    MongodbStorage.getBlockCount E d = Resolved height
    ∧ getBlockCount E st d = (Resolved height, st')
    ∧ index st' = height - 1 ∧ blockHeight st' = height
    ∧ (startup E d).1 = Resolved height ∧ index (startup E d).2 = height - 1
    ∧ (blocks d = [] → height = 0)
    ∧ (blocks d ≠ [] →
       height - 1 ∈ map b_index (blocks d)
       ∧ ∀ i, i ∈ map b_index (blocks d) → i ≤ height - 1)
    ∧ (∀ n : nat, map b_index (blocks d) ≡ₚ map Z.of_nat (seq 0 n) →
                  height = Z.of_nat (length (blocks d))).
Proof.
  intros Herr.
  assert (∃ height, MongodbStorage.getBlockCount E d = Resolved height
            ∧ (blocks d = [] → height = 0)
            ∧ (blocks d ≠ [] →
               height - 1 ∈ map b_index (blocks d)
               ∧ ∀ i, i ∈ map b_index (blocks d) → i ≤ height - 1))
    as (height & Hcount & Hempty & Hmax).
  { unfold MongodbStorage.getBlockCount. rewrite Herr. simpl.
    destruct (MongodbStorage.findTop (blocks d)) as [t|] eqn:Htop.
    - exists (b_index t + 1). split; [done|].
      apply findTop_max in Htop as [Hin Hmax].
      split; [intros Hnil; rewrite Hnil in Hin; by apply elem_of_nil in Hin|].
      intros _. replace (b_index t + 1 - 1) with (b_index t) by lia.
      split; [by apply list_elem_of_fmap_2|].
      intros i (b & -> & Hb)%list_elem_of_fmap. by apply Hmax.
    - apply findTop_nil in Htop. exists 0. by split. }
  exists height, {| blockHeight := height; index := height - 1;
                    unlinkedBlocks := unlinkedBlocks st;
                    assets := assets st; assetsFlat := assetsFlat st |}.
  unfold startup, getBlockCount. rewrite Hcount. simpl.
  repeat (split; [done|]).
  intros n Hperm. pose proof (Permutation_length Hperm) as Hlen.
  rewrite !length_map, length_seq in Hlen. rewrite Hlen.
  destruct n as [|n].
  - apply Hempty. by destruct (blocks d).
  - destruct Hmax as [Hin Hle]; [by destruct (blocks d)|].
    rewrite Hperm in Hin. apply elem_of_upto in Hin.
    assert (Z.of_nat n ≤ height - 1); [|lia].
    apply Hle. rewrite Hperm. apply elem_of_upto. lia.
Qed.

Lemma getBlockCount_height_witness :
  MongodbStorage.getBlockCount E0 db_full = Resolved 3
  ∧ index (startup E0 db_full).2 = 2
  ∧ 3 = Z.of_nat (length (blocks db_full)).
Proof.
  destruct (getBlockCount_height E0 init db_full eq_refl)
    as (height & st' & Hcount & _ & _ & _ & _ & Hindex & _ & _ & Hfull).
  assert (height = 3) as -> by (vm_compute in Hcount; congruence).
  split; [exact Hcount|]. split; [exact Hindex|].
  apply (Hfull 3%nat). simpl.
  apply perm_trans with [0; 2; 1]; [apply perm_swap|apply perm_skip, perm_swap].
Defined.

(** * Further properties of the code *)

(** ** The chain position under [saveBlock] *)

Lemma link_position fuel st :
  index st ≤ index (link fuel st)
  ∧ blockHeight (link fuel st) - index (link fuel st) = blockHeight st - index st
  ∧ assets (link fuel st) = assets st
  ∧ assetsFlat (link fuel st) = assetsFlat st.
Proof.
  revert st. induction fuel as [|fuel IH]; intros st; simpl; [by repeat split|].
  destruct (indexOf (index st + 1) (unlinkedBlocks st)) as [i|]; [|by repeat split].
  destruct (IH {| blockHeight := blockHeight st + 1; index := index st + 1;
                  unlinkedBlocks := delete i (unlinkedBlocks st);
                  assets := assets st; assetsFlat := assetsFlat st |})
    as (Hi & Hh & Ha & Hf).
  simpl in *. repeat split; [lia|lia|done|done].
Qed.

Lemma track_position st b :
  index st ≤ index (track st b)
  ∧ blockHeight (track st b) - index (track st b) = blockHeight st - index st
  ∧ assets (track st b) = assets st
  ∧ assetsFlat (track st b) = assetsFlat st.
Proof.
  unfold track, link_blocks. destruct (index st <? b_index b); [|by repeat split].
  apply (link_position _ {| blockHeight := blockHeight st; index := index st;
                            unlinkedBlocks := unlinkedBlocks st ++ [b_index b];
                            assets := assets st; assetsFlat := assetsFlat st |}).
Qed.

(** Whatever its outcome, [saveBlock] leaves the chain position as it
    was or moves it by [track]. *)
Lemma saveBlock_chain E st d b p st' d' :
  saveBlock E st d b = (p, st', d') →
  ∃ st1, same_chain st st1
         ∧ (st' = st1 ∨ st' = track st1 (MongodbStorage.delintBlock E b)).
Proof.
  intros H. destruct (is_resolved p) eqn:Hp.
  { apply saveBlock_resolved in H as (st1 & Hsame & ->); [|done]. exists st1. auto. }
  unfold saveBlock, MongodbStorage.saveBlock in H.
  destruct (MongodbStorage.callback _ tt) as [|[]|e]; simplify_eq.
  - eexists. split; [|by left]. by repeat split.
  - destruct (foldl _ _ _) as [[st1 d2]|] eqn:Hfold; simplify_eq.
    + apply discover_all_same_chain in Hfold as (st0 & d0 & ? & Hsame). simplify_eq.
      destruct (run_all _ _ _) as [vals d3].
      destruct (Promise_all _); simplify_eq; try done; eexists; eauto.
    + eexists. split; [|by left]. by repeat split.
  - eexists. split; [|by left]. by repeat split.
Qed.

(** X1.  Whatever the block and whatever fails, [saveBlock] never moves
    [index] back, and [blockHeight - index] stays what it was. *)
Theorem saveBlock_position_monotone E st d b p st' d' :
  saveBlock E st d b = (p, st', d') →
  index st ≤ index st'
  ∧ blockHeight st' - index st' = blockHeight st - index st.
Proof.
  intros (st1 & (Hi & Hh & _) & [->| ->])%saveBlock_chain; [lia|].
  destruct (track_position st1 (MongodbStorage.delintBlock E b)) as (? & ? & _). lia.
Qed.

Lemma saveBlock_position_monotone_witness :
  let '(p, st', d') := saveBlock E0 st_ready db0 block_pay in
  index st_ready ≤ index st'
  ∧ blockHeight st' - index st' = blockHeight st_ready - index st_ready.
Proof.
  destruct (saveBlock E0 st_ready db0 block_pay) as [[p st'] d'] eqn:H.
  exact (saveBlock_position_monotone _ _ _ _ _ _ _ H).
Defined.

(** X2.  A block whose index is not above [index] never changes the chain
    position ([index], [blockHeight], [unlinkedBlocks]), whether the call
    resolves or not. *)
Theorem saveBlock_below_index E st d b p st' d' :
  saveBlock E st d b = (p, st', d') →
  b_index b ≤ index st →
  same_chain st st'.
Proof.
  intros (st1 & Hsame & [->| ->])%saveBlock_chain Hle; [done|].
  unfold track. simpl. destruct Hsame as (Hi & ? & ?).
  destruct (Z.ltb_spec (index st1) (b_index b)); [lia|]. by split.
Qed.

Lemma saveBlock_below_index_witness :
  let '(p, st', d') := saveBlock E0 st_100 db0 block_pay in same_chain st_100 st'.
Proof.
  destruct (saveBlock E0 st_100 db0 block_pay) as [[p st'] d'] eqn:H.
  apply (saveBlock_below_index _ _ _ _ _ _ _ H). vm_compute. discriminate.
Defined.

(** ** The asset registry under [saveBlock] *)

Lemma discover_step E st0 d0 o flat :
  assetsFlat st0 = Some flat →
  ∃ st1 d1, discover E (Some (st0, d0)) o = Some (st1, d1)
    ∧ same_chain st0 st1
    ∧ blocks d1 = blocks d0 ∧ transactions d1 = transactions d0
    ∧ ((out_asset o ∈ flat ∧ st1 = st0 ∧ d1 = d0)
       ∨ ((out_asset o ∉ flat)
          ∧ assets st1 = assets st0 ++ [newAsset_of o]
          ∧ assetsFlat st1 = Some (flat ++ [out_asset o]))).
Proof.
  intros Hflat. unfold discover. simpl. rewrite Hflat. simpl.
  case_decide as Hin.
  - exists st0, d0. repeat split; auto.
  - eexists _, _. split; [done|].
    assert (∀ a, blocks (MongodbStorage.saveAddress E d0 a).2 = blocks d0
                 ∧ transactions (MongodbStorage.saveAddress E d0 a).2 = transactions d0)
      as Hsave.
    { intros a. unfold MongodbStorage.saveAddress. simpl.
      by destruct (match err_saveAddress E a with Some e => Some e | None => _ end). }
    split; [by repeat split|]. split; [apply Hsave|]. split; [apply Hsave|].
    right. by repeat split.
Qed.

Lemma discover_fold_registry E outs : ∀ st0 d0,
  registry_ok st0 →
  ∃ st1 d1, foldl (discover E) (Some (st0, d0)) outs = Some (st1, d1)
    ∧ registry_ok st1
    ∧ assets st0 `prefix_of` assets st1
    ∧ blocks d1 = blocks d0 ∧ transactions d1 = transactions d0
    ∧ ∀ o, o ∈ outs → out_asset o ∈ map a_asset (assets st1).
Proof.
  induction outs as [|o outs IH]; intros st0 d0 Hok.
  - exists st0, d0. repeat split; try done. by intros o ?%elem_of_nil.
  - destruct Hok as (flat & Hflat & Hsync & Hnd).
    destruct (discover_step E st0 d0 o flat Hflat)
      as (st1 & d1 & Hstep & _ & Hb & Ht & Hcase).
    assert (registry_ok st1 ∧ assets st0 `prefix_of` assets st1
            ∧ out_asset o ∈ map a_asset (assets st1)) as (Hok1 & Hpre & Hin).
    { destruct Hcase as [(Hin & -> & ->)|(Hnotin & Ha & Hf)].
      - split; [by exists flat|]. split; [done|]. by rewrite Hsync.
      - split; [|split].
        + exists (flat ++ [out_asset o]). split; [done|]. split.
          * rewrite Ha, map_app, Hsync. done.
          * apply NoDup_app. split; [done|]. split; [|apply NoDup_singleton].
            by intros x Hx ->%list_elem_of_singleton.
        + rewrite Ha. by apply prefix_app_r.
        + rewrite Ha, map_app. apply elem_of_app. right. simpl.
          apply list_elem_of_singleton. done. }
    destruct (IH st1 d1 Hok1) as (st2 & d2 & Hfold & Hok2 & Hpre2 & Hb2 & Ht2 & Hall).
    exists st2, d2. cbn [foldl]. rewrite Hstep. split; [done|]. split; [done|].
    split; [by etrans|]. split; [congruence|]. split; [congruence|].
    intros o' [->|Ho']%elem_of_cons; [|by apply Hall].
    destruct Hpre2 as [k ->]. rewrite map_app. apply elem_of_app. by left.
Qed.

Lemma discover_all_registry E txs : ∀ st0 d0,
  registry_ok st0 →
  ∃ st1 d1,
    foldl (λ acc tx, foldl (discover E) acc (tx_vout tx)) (Some (st0, d0)) txs
      = Some (st1, d1)
    ∧ registry_ok st1
    ∧ assets st0 `prefix_of` assets st1
    ∧ blocks d1 = blocks d0 ∧ transactions d1 = transactions d0
    ∧ ∀ tx o, tx ∈ txs → o ∈ tx_vout tx → out_asset o ∈ map a_asset (assets st1).
Proof.
  induction txs as [|tx txs IH]; intros st0 d0 Hok.
  - exists st0, d0. repeat split; try done. by intros tx o ?%elem_of_nil.
  - destruct (discover_fold_registry E (tx_vout tx) st0 d0 Hok)
      as (st1 & d1 & Hfold & Hok1 & Hpre & Hb & Ht & Hall).
    destruct (IH st1 d1 Hok1) as (st2 & d2 & Hfold2 & Hok2 & Hpre2 & Hb2 & Ht2 & Hall2).
    exists st2, d2. cbn [foldl]. rewrite Hfold. split; [done|]. split; [done|].
    split; [by etrans|]. split; [congruence|]. split; [congruence|].
    intros tx' o [->|Htx']%elem_of_cons Ho; [|by eapply Hall2].
    destruct Hpre2 as [k ->]. rewrite map_app. apply elem_of_app. left. by apply Hall.
Qed.

Lemma registry_ok_track st b : registry_ok st → registry_ok (track st b).
Proof.
  destruct (track_position st b) as (_ & _ & Ha & Hf).
  unfold registry_ok. by rewrite Ha, Hf.
Qed.

(** X3.  The registry under [saveBlock]: when [assets] and [assetsFlat]
    agree and list no asset twice, they still do afterwards; no asset is
    dropped; and once the call has resolved every asset of an output of
    the block is listed (once, however many outputs carry it). *)
Theorem saveBlock_registry E st d b p st' d' :
  registry_ok st →
  saveBlock E st d b = (p, st', d') →
  registry_ok st'
  ∧ assets st `prefix_of` assets st'
  ∧ (is_resolved p = true →
     ∀ tx o, tx ∈ b_tx (MongodbStorage.delintBlock E b) → o ∈ tx_vout tx →
             out_asset o ∈ map a_asset (assets st')).
Proof.
  intros Hok H. unfold saveBlock, MongodbStorage.saveBlock in H.
  set (blk := MongodbStorage.delintBlock E b) in *.
  destruct (MongodbStorage.callback _ tt) as [|[]|e]; simplify_eq; try done.
  set (d1 := match _ with Some _ => d | None => _ end) in *. clearbody d1.
  destruct (discover_all_registry E (map (stamp_index (b_index blk)) (b_tx blk)) st d1 Hok)
    as (st1 & d2 & Hfold & Hok1 & Hpre & _ & _ & Hall).
  rewrite Hfold in H. destruct (run_all _ _ _) as [vals d3].
  destruct (track_position st1 blk) as (_ & _ & Ha & _).
  destruct (Promise_all _); simplify_eq; try done.
  split; [by apply registry_ok_track|]. rewrite Ha. split; [done|].
  intros _ tx o Htx Ho. apply (Hall (stamp_index (b_index blk) tx) o); [|done].
  by apply list_elem_of_fmap_2.
Qed.

Lemma saveBlock_registry_witness :
  let '(p, st', d') := saveBlock E0 st_neo db0 block_pay in
  registry_ok st'
  ∧ assets st_neo `prefix_of` assets st'
  ∧ (is_resolved p = true →
     ∀ tx o, tx ∈ b_tx (MongodbStorage.delintBlock E0 block_pay) → o ∈ tx_vout tx →
             out_asset o ∈ map a_asset (assets st')).
Proof.
  destruct (saveBlock E0 st_neo db0 block_pay) as [[p st'] d'] eqn:H.
  apply (saveBlock_registry E0 st_neo db0 block_pay p st' d'); [|exact H].
  exists ["neo"]. repeat split. apply NoDup_singleton.
Defined.

Lemma discover_all_total E txs : ∀ st0 d0,
  is_Some (assetsFlat st0) →
  ∃ st1 d1,
    foldl (λ acc tx, foldl (discover E) acc (tx_vout tx)) (Some (st0, d0)) txs
      = Some (st1, d1).
Proof.
  assert (∀ outs st0 d0, is_Some (assetsFlat st0) →
            ∃ st1 d1, foldl (discover E) (Some (st0, d0)) outs = Some (st1, d1)
                      ∧ is_Some (assetsFlat st1)) as Hinner.
  { induction outs as [|o outs IH]; intros st0 d0 [flat Hflat]; [by eexists _, _|].
    destruct (discover_step E st0 d0 o flat Hflat) as (st1 & d1 & Hstep & _ & _ & _ & Hcase).
    cbn [foldl]. rewrite Hstep. apply IH.
    destruct Hcase as [(_ & -> & _)|(_ & _ & ->)]; eauto. }
  induction txs as [|tx txs IH]; intros st0 d0 Hflat; [by eexists _, _|].
  destruct (Hinner (tx_vout tx) st0 d0 Hflat) as (st1 & d1 & Hfold & Hflat1).
  cbn [foldl]. rewrite Hfold. by apply IH.
Qed.

Lemma run_all_save_tx E blk txs : ∀ d,
  (run_all (save_tx E blk) d txs).1 = replicate (length txs) tt.
Proof.
  induction txs as [|tx txs IH]; intros d; simpl; [done|].
  specialize (IH (MongodbStorage.saveTransaction E d (stamp_time (b_time blk) tx)).2).
  destruct (run_all _ _ txs) as [vals d']. simpl in *. by rewrite IH.
Qed.

(** X4.  Once the asset list is loaded, the outcome of [saveBlock] is that
    of the save of the block alone: it rejects with the error of that save
    and otherwise resolves, with one [undefined] for each transaction of
    the block, whatever happens to the saves of the transactions and of the
    new assets. *)
Theorem saveBlock_outcome E st d b :
  is_Some (assetsFlat st) →
  (saveBlock E st d b).1.1
  = promise_map (λ _, replicate (length (b_tx b)) tt)
                (MongodbStorage.saveBlock E d b).1.1.
Proof.
  intros Hflat. unfold saveBlock, MongodbStorage.saveBlock.
  set (blk := MongodbStorage.delintBlock E b).
  destruct (MongodbStorage.callback _ tt) as [|[]|e];
    cbv beta iota zeta; cbn [fst snd promise_map]; try done.
  set (d1 := match _ with Some _ => d | None => _ end). clearbody d1.
  destruct (discover_all_total E (map (stamp_index (b_index blk)) (b_tx blk)) st d1 Hflat)
    as (st1 & d2 & ->).
  pose proof (run_all_save_tx E blk (map (stamp_index (b_index blk)) (b_tx blk)) d2) as Hv.
  destruct (run_all _ _ _) as [vals d3]. cbn [fst] in Hv. subst vals.
  rewrite (proj2 (Promise_all_Resolved _ _) eq_refl). cbn [fst snd resolve].
  unfold blk. simpl. by rewrite !length_map.
Qed.

Lemma saveBlock_outcome_witness :
  (saveBlock E_saveTX_fails st_ready db0 block_pay).1.1
  = promise_map (λ _, replicate (length (b_tx block_pay)) tt)
                (MongodbStorage.saveBlock E_saveTX_fails db0 block_pay).1.1.
Proof. apply (saveBlock_outcome E_saveTX_fails st_ready db0 block_pay). by eexists. Defined.

Lemma discover_all_undefined E txs : ∀ st0 d0,
  assetsFlat st0 = None →
  Exists (λ tx, tx_vout tx ≠ []) txs →
  foldl (λ acc tx, foldl (discover E) acc (tx_vout tx)) (Some (st0, d0)) txs = None.
Proof.
  assert (∀ outs, foldl (discover E) None outs = None) as Hnone
    by (induction outs; simpl; auto).
  assert (∀ txs, foldl (λ acc tx, foldl (discover E) acc (tx_vout tx)) None txs = None)
    as Hnone2.
  { induction txs0 as [|tx txs0 IH]; [done|]. cbn [foldl]. by rewrite Hnone. }
  induction txs as [|tx txs IH]; intros st0 d0 Hflat Hex; [by apply Exists_nil in Hex|].
  cbn [foldl]. destruct (tx_vout tx) as [|o outs] eqn:Hout.
  - apply Exists_cons in Hex as [?|Hex]; [done|]. by apply IH.
  - cbn [foldl]. unfold discover at 2. simpl. rewrite Hflat. simpl.
    by rewrite Hnone, Hnone2.
Qed.

(** X5.  Before the asset list is loaded [assetsFlat] is [undefined]: a
    block that has an output is stored, and then [saveBlock] rejects with a
    TypeError without moving the chain position.  A second [saveBlock] of
    that block is refused as a duplicate, so the block stays out of the
    chain position. *)
Theorem saveBlock_before_asset_list E st d b :
  assetsFlat st = None →
  err_saveBlock E (MongodbStorage.delintBlock E b) = None →
  b_index b ∉ map b_index (blocks d) →
  Exists (λ tx, tx_vout tx ≠ []) (b_tx b) →
  let d1 := {| blocks := blocks d ++ [MongodbStorage.delintBlock E b];
               transactions := transactions d; addresses := addresses d |} in
  saveBlock E st d b = (Rejected type_error, st, d1)
  ∧ saveBlock E st d1 b = (Rejected duplicate_key, st, d1).
Proof.
  intros Hflat Herr Hfresh Hex d1. split.
  - unfold saveBlock, MongodbStorage.saveBlock. rewrite Herr.
    rewrite decide_False by done. simpl.
    rewrite discover_all_undefined; [done..|].
    apply Exists_exists in Hex as (tx & Htx & Hout). apply Exists_exists.
    exists (stamp_index (b_index b) (MongodbStorage.delintTX E tx)).
    split; [by apply list_elem_of_fmap_2, list_elem_of_fmap_2|].
    simpl. by destruct (tx_vout tx).
  - unfold saveBlock, MongodbStorage.saveBlock. rewrite Herr.
    rewrite decide_True; [done|]. simpl.
    rewrite map_app. apply elem_of_app. right. simpl. apply list_elem_of_singleton. done.
Qed.

Lemma saveBlock_before_asset_list_witness :
  let d1 := {| blocks := [MongodbStorage.delintBlock E0 block_pay];
               transactions := []; addresses := ∅ |} in
  saveBlock E0 init db0 block_pay = (Rejected type_error, init, d1)
  ∧ saveBlock E0 init d1 block_pay = (Rejected duplicate_key, init, d1).
Proof.
  apply (saveBlock_before_asset_list E0 init db0 block_pay); try reflexivity.
  - by intros ?%elem_of_nil.
  - apply Exists_cons_hd. discriminate.
Defined.

(** ** What [saveBlock] stores *)

Lemma discover_db E outs : ∀ acc st1 d1,
  foldl (discover E) acc outs = Some (st1, d1) →
  ∃ st0 d0, acc = Some (st0, d0)
            ∧ blocks d1 = blocks d0 ∧ transactions d1 = transactions d0.
Proof.
  induction outs as [|o outs IH]; intros acc st1 d1; simpl.
  - intros ->. by eexists _, _.
  - intros H. apply IH in H as (st' & d' & Hacc & Hb & Ht).
    destruct acc as [[st0 d0]|]; [|done]. exists st0, d0. split; [done|].
    destruct (assetsFlat st0) as [flat|] eqn:Hflat;
      [|unfold discover in Hacc; simpl in Hacc; by rewrite Hflat in Hacc].
    destruct (discover_step E st0 d0 o flat Hflat) as (? & ? & Hstep & _ & Hb' & Ht' & _).
    rewrite Hstep in Hacc. simplify_eq. split; congruence.
Qed.

Lemma discover_all_db E txs : ∀ acc st1 d1,
  foldl (λ acc tx, foldl (discover E) acc (tx_vout tx)) acc txs = Some (st1, d1) →
  ∃ st0 d0, acc = Some (st0, d0)
            ∧ blocks d1 = blocks d0 ∧ transactions d1 = transactions d0.
Proof.
  induction txs as [|tx txs IH]; intros acc st1 d1; cbn [foldl].
  - intros ->. by eexists _, _.
  - intros H. apply IH in H as (st' & d' & Hacc & Hb & Ht).
    apply discover_db in Hacc as (st0 & d0 & -> & Hb' & Ht').
    exists st0, d0. split; [done|]. split; congruence.
Qed.



Lemma findOne_tx_None docs txid :
  MongodbStorage.findOne_tx txid docs = None ↔ txid ∉ map tx_txid docs.
Proof.
  unfold MongodbStorage.findOne_tx. induction docs as [|t docs IH]; simpl.
  - split; [intros _; apply not_elem_of_nil|done].
  - rewrite not_elem_of_cons. case_bool_decide as Ht.
    + split; [done|]. by intros [? _].
    + rewrite IH. split; [intros ?; split; [congruence|done]|by intros [_ ?]].
Qed.


(** The steps of a [saveBlock] that resolves. *)
Lemma saveBlock_resolved_inv E st d b p st' d' :
  saveBlock E st d b = (p, st', d') → is_resolved p = true →
  let blk := MongodbStorage.delintBlock E b in
  let txs := map (stamp_index (b_index blk)) (b_tx blk) in
  let d1 := {| blocks := blocks d ++ [blk]; transactions := transactions d;
               addresses := addresses d |} in
  err_saveBlock E blk = None
  ∧ (b_index b ∉ map b_index (blocks d))
  ∧ ∃ st1 d2,
      foldl (λ acc tx, foldl (discover E) acc (tx_vout tx)) (Some (st, d1)) txs
        = Some (st1, d2)
      ∧ st' = track st1 blk
      ∧ d' = (run_all (save_tx E blk) d2 txs).2.
Proof.
  intros H Hp blk txs d1. unfold saveBlock, MongodbStorage.saveBlock in H.
  fold blk in H. fold txs in H.
  destruct (err_saveBlock E blk) as [e|] eqn:Herr.
  { cbv beta iota zeta in H. cbn [MongodbStorage.callback reject resolve] in H.
    injection H as <- _ _. done. }
  destruct (decide (b_index blk ∈ map b_index (blocks d))) as [Hin|Hnotin].
  { cbv beta iota zeta in H. cbn [MongodbStorage.callback reject resolve] in H.
    injection H as <- _ _. done. }
  cbv beta iota zeta in H. cbn [MongodbStorage.callback reject resolve] in H.
  fold d1 in H. split; [done|]. split; [done|].
  destruct (foldl _ (Some (st, d1)) txs) as [[st1 d2]|] eqn:Hfold.
  2:{ injection H as <- _ _. done. }
  exists st1, d2. split; [done|].
  destruct (run_all (save_tx E blk) d2 txs) as [vals d3] eqn:Hrun.
  destruct (Promise_all (map Resolved vals)); cbn [fst snd] in *;
    injection H as <- <- <-; done.
Qed.



(** ** Further properties of the expansion *)

(** X7.  [getExpandedTX] of a txid that is not stored rejects with "Could
    not find the transaction" and writes nothing. *)
Theorem getExpandedTX_not_found E d txid :
  err_findTX E (Some txid) = None →
  txid ∉ map tx_txid (transactions d) →
  getExpandedTX E d txid = (Rejected not_found, d).
Proof.
  intros Herr Hnot%findOne_tx_None.
  unfold getExpandedTX, MongodbStorage.getTX, MongodbStorage.callback.
  rewrite Herr. simpl. by rewrite Hnot.
Qed.

Lemma getExpandedTX_not_found_witness :
  getExpandedTX E0 db_spend "zz" = (Rejected not_found, db_spend).
Proof.
  apply (getExpandedTX_not_found E0 db_spend "zz"); [reflexivity|].
  apply (bool_decide_unpack _). by vm_compute.
Defined.

Lemma Promise_all_getTX_lookup E d vin res :
  Promise_all (map (MongodbStorage.getTX E d) (map vin_txid vin)) = Resolved res →
  Forall2 (λ entry r, r = vin_txid entry ≫= λ k, MongodbStorage.findOne_tx k (transactions d))
          vin res.
Proof.
  intros Hall%Promise_all_Resolved. revert res Hall.
  induction vin as [|entry vin IH]; intros [|r res] Hall; simplify_eq/=; constructor.
  - unfold MongodbStorage.getTX, MongodbStorage.callback in *.
    destruct (err_findTX E (vin_txid entry)); by simplify_eq/=.
  - by apply IH.
Qed.

(** X8.  When a [vin] entry of a transaction not yet expanded refers to a
    transaction that is not stored (its block has not arrived, say),
    [getExpandedTX] never settles, and writes nothing. *)
Theorem getExpandedTX_missing_reference E d txid tx t k :
  err_findTX E (Some txid) = None →
  MongodbStorage.findOne_tx txid (transactions d) = Some tx →
  existsb has_asset (tx_vin tx) = false →
  VRef t k ∈ tx_vin tx →
  t ∉ map tx_txid (transactions d) →
  getExpandedTX E d txid = (Pending, d).
Proof.
  intros Herr Hfind Hsome Hin Hmissing%findOne_tx_None.
  unfold getExpandedTX, MongodbStorage.getTX at 1.
  rewrite Herr. simpl. rewrite Hfind, Hsome.
  destruct (Promise_all _) as [|res|e] eqn:Hall; try done.
  apply Promise_all_getTX_lookup in Hall.
  assert (mapM (λ ri, spent_output ri.1 ri.2) (zip res (tx_vin tx)) = None) as ->; [|done].
  apply mapM_None. revert res Hall Hin. generalize (tx_vin tx) as vin.
  induction vin as [|entry vin IH]; intros res Hall Hin; [by apply elem_of_nil in Hin|].
  apply Forall2_cons_inv_l in Hall as (r & res' & Hr & Hall & ->). simpl.
  apply elem_of_cons in Hin as [<-|Hin].
  - apply Exists_cons_hd. simpl in Hr. rewrite Hmissing in Hr. by subst r.
  - apply Exists_cons_tl. by apply IH.
Qed.

Lemma getExpandedTX_missing_reference_witness :
  getExpandedTX E0 {| blocks := []; transactions := [tx_c]; addresses := ∅ |} "c"
  = (Pending, {| blocks := []; transactions := [tx_c]; addresses := ∅ |}).
Proof.
  apply (getExpandedTX_missing_reference E0 _ "c" tx_c "b" 0); try reflexivity.
  - apply elem_of_cons. by left.
  - apply (bool_decide_unpack _). by vm_compute.
Defined.

Lemma fetch_spent E d vin outs :
  (∀ k, err_findTX E k = None) →
  Forall2 (spends d) vin outs →
  existsb has_asset vin = false
  ∧ ∃ res, Promise_all (map (MongodbStorage.getTX E d) (map vin_txid vin)) = Resolved res
           ∧ mapM (λ ri, spent_output ri.1 ri.2) (zip res vin) = Some (map VOut outs).
Proof.
  intros Herr. induction 1 as [|entry o vin outs (t & k & r & -> & Hr & Hk & Ho) _ IH].
  - split; [done|]. by exists [].
  - destruct IH as (Hsome & res & Hres & HmapM). split; [done|].
    exists (Some r :: res). apply Promise_all_Resolved in Hres. split.
    + apply Promise_all_Resolved. simpl. rewrite Hres. f_equal.
      unfold MongodbStorage.getTX, MongodbStorage.callback. rewrite Herr. simpl.
      by rewrite Hr.
    + simpl in HmapM |- *. unfold nth_out.
      destruct (Z.ltb_spec k 0); [lia|]. rewrite Ho. simpl.
      by rewrite HmapM.
Qed.

(** X9.  When no read fails and every [vin] entry of a stored transaction
    refers to an existing output of a stored transaction, [getExpandedTX]
    resolves with the transaction in which every entry is replaced by the
    output it refers to, all else unchanged; and unless the write-back
    fails, that is the transaction [getTX] finds afterwards. *)
Theorem getExpandedTX_resolves_inputs E d txid tx outs :
  (∀ k, err_findTX E k = None) →
  MongodbStorage.findOne_tx txid (transactions d) = Some tx →
  Forall2 (spends d) (tx_vin tx) outs →
  let tx' := set_vin tx (map VOut outs) in
  (getExpandedTX E d txid).1 = Resolved tx'
  ∧ tx_body tx' = tx_body tx
  ∧ (err_updateTX E tx' = None →
     MongodbStorage.getTX E (getExpandedTX E d txid).2 (Some txid) = Resolved (Some tx')).
Proof.
  intros Herr Hfind Hvin tx'.
  destruct (fetch_spent E d _ _ Herr Hvin) as (Hsome & res & Hres & HmapM).
  assert (getExpandedTX E d txid
          = (Resolved tx', (MongodbStorage.updateTransaction E d tx').2)) as ->.
  { unfold getExpandedTX, MongodbStorage.getTX at 1.
    rewrite Herr. simpl. rewrite Hfind, Hsome, Hres, HmapM. fold tx'.
    unfold MongodbStorage.updateTransaction, MongodbStorage.callback.
    by destruct (err_updateTX E tx'). }
  split; [done|]. split; [done|]. intros Hupd.
  unfold MongodbStorage.getTX, MongodbStorage.callback, MongodbStorage.updateTransaction.
  rewrite Herr, Hupd. simpl. f_equal.
  eapply findOne_update_tx; [done|]. simpl. by eapply findOne_tx_txid.
Qed.

Lemma getExpandedTX_resolves_inputs_witness :
  (getExpandedTX E0 db_spend "c").1 = Resolved tx_c_expanded
  ∧ tx_body tx_c_expanded = tx_body tx_c
  ∧ (err_updateTX E0 tx_c_expanded = None →
     MongodbStorage.getTX E0 (getExpandedTX E0 db_spend "c").2 (Some "c")
     = Resolved (Some tx_c_expanded)).
Proof.
  apply (getExpandedTX_resolves_inputs E0 db_spend "c" tx_c
           [ {| out_n := 0; out_asset := "neo"; out_value := 7; out_address := "alice" |} ]).
  - reflexivity.
  - reflexivity.
  - repeat constructor. exists "b", 0, tx_b. repeat split. lia.
Defined.

Lemma update_tx_body docs tx vin :
  MongodbStorage.findOne_tx (tx_txid tx) docs = Some tx →
  map tx_body (MongodbStorage.update_tx (set_vin tx vin) docs) = map tx_body docs
  ∧ ∀ other, other ≠ tx_txid tx →
      MongodbStorage.findOne_tx other (MongodbStorage.update_tx (set_vin tx vin) docs)
      = MongodbStorage.findOne_tx other docs.
Proof.
  unfold MongodbStorage.findOne_tx. induction docs as [|t docs IH]; simpl; [done|].
  case_bool_decide as Ht.
  - intros [= ->]. split; [done|]. intros other Hother. simpl.
    by rewrite !bool_decide_false.
  - intros Hfind. destruct (IH Hfind) as [Hbody Hother]. split.
    + simpl. by rewrite Hbody.
    + intros other Hne. simpl. destruct (bool_decide (tx_txid t = other)); [done|].
      by apply Hother.
Qed.

(** X10.  Whatever its outcome, [getExpandedTX] leaves the blocks and the
    addresses as they are and changes no stored transaction but in its
    [vin]: txid, type, outputs, block index and time of every stored
    transaction are kept, in the same order; and what is stored under
    another txid is untouched. *)
Theorem getExpandedTX_keeps_outputs E d txid :
  let d' := (getExpandedTX E d txid).2 in
  blocks d' = blocks d
  ∧ addresses d' = addresses d
  ∧ map tx_body (transactions d') = map tx_body (transactions d)
  ∧ ∀ other, other ≠ txid →
      MongodbStorage.findOne_tx other (transactions d')
      = MongodbStorage.findOne_tx other (transactions d).
Proof.
  unfold getExpandedTX.
  destruct (MongodbStorage.getTX E d (Some txid)) as [|[tx|]|e] eqn:Hget; try done.
  assert (MongodbStorage.findOne_tx txid (transactions d) = Some tx) as Hfind.
  { unfold MongodbStorage.getTX, MongodbStorage.callback in Hget.
    destruct (err_findTX E (Some txid)); by simplify_eq/=. }
  destruct (Promise_all _) as [|res|e]; try done.
  destruct (mapM _ _) as [vin|]; try done.
  unfold MongodbStorage.updateTransaction.
  destruct (err_updateTX E (set_vin tx vin)); cbn [fst snd]; [done|]. simpl.
  pose proof (findOne_tx_txid _ _ _ Hfind) as Htxid. subst txid.
  destruct (update_tx_body (transactions d) tx vin Hfind) as [Hbody Hother].
  by repeat split.
Qed.

Lemma getExpandedTX_keeps_outputs_witness :
  let d' := (getExpandedTX E0 db_spend "c").2 in
  blocks d' = blocks db_spend
  ∧ addresses d' = addresses db_spend
  ∧ map tx_body (transactions d') = map tx_body (transactions db_spend)
  ∧ ∀ other, other ≠ "c" →
      MongodbStorage.findOne_tx other (transactions d')
      = MongodbStorage.findOne_tx other (transactions db_spend).
Proof. exact (getExpandedTX_keeps_outputs E0 db_spend "c"). Defined.

(** ** The balance cache *)

Lemma existsb_asset asset es :
  existsb (λ e, bool_decide (e_asset e = asset)) es = true ↔ asset ∈ map e_asset es.
Proof.
  rewrite existsb_exists, list_elem_of_fmap. split.
  - intros (e & He%list_elem_of_In & Heq%bool_decide_eq_true). by exists e.
  - intros (e & -> & He). exists e. split; [by apply list_elem_of_In|].
    by apply bool_decide_eq_true.
Qed.

Lemma set_balance_spec asset balance index es :
  map e_asset (MongodbStorage.set_balance asset balance index es) = map e_asset es
  ∧ (asset ∈ map e_asset es →
     ∃ e, e ∈ MongodbStorage.set_balance asset balance index es
          ∧ e_asset e = asset ∧ e_balance e = balance ∧ e_index e = index)
  ∧ (NoDup (map e_asset es) →
     ∀ e, e_asset e ≠ asset →
          e ∈ MongodbStorage.set_balance asset balance index es ↔ e ∈ es).
Proof.
  induction es as [|e0 es (IHmap & IHin & IHother)]; simpl.
  - split; [done|]. split; [by intros ?%elem_of_nil|done].
  - case_bool_decide as He0; simpl.
    + split; [done|]. split.
      * intros _. eexists. split; [apply elem_of_cons; by left|done].
      * intros _ e Hne. rewrite !elem_of_cons. split.
        -- intros [->|?]; [by destruct Hne|by right].
        -- intros [->|?]; [by destruct Hne|by right].
    + split; [by rewrite IHmap|]. split.
      * intros [?|Hin]%elem_of_cons; [congruence|].
        destruct (IHin Hin) as (e & He & ?). exists e. split; [|done].
        apply elem_of_cons. by right.
      * intros [_ Hnd]%NoDup_cons e Hne. rewrite !elem_of_cons, (IHother Hnd e Hne). done.
Qed.

(** X11.  [updateBalance] on an account whose entries carry pairwise
    different assets upserts: afterwards the account has an entry on the
    asset with the balance and the index given, its entries still carry
    pairwise different assets, the entries on other assets are those it
    had, and nothing else in the database has changed. *)
Theorem updateBalance_upsert E d addressHash assetHash balance index a :
  err_updateBalance E addressHash assetHash = None →
  err_pushBalance E addressHash assetHash = None →
  addresses d !! addressHash = Some a →
  a_address a = addressHash →
  distinct_assets (a_assets a) →
  let r := MongodbStorage.updateBalance E d addressHash assetHash balance index in
  r.1 = Resolved tt
  ∧ blocks r.2 = blocks d ∧ transactions r.2 = transactions d
  ∧ (∀ other, other ≠ addressHash → addresses r.2 !! other = addresses d !! other)
  ∧ ∃ a', addresses r.2 !! addressHash = Some a'
          ∧ distinct_assets (a_assets a')
          ∧ (∃ e, e ∈ a_assets a' ∧ e_asset e = assetHash
                  ∧ e_balance e = balance ∧ e_index e = index)
          ∧ (∀ e, e_asset e ≠ assetHash → e ∈ a_assets a' ↔ e ∈ a_assets a).
Proof.
  intros Herr Hpush Ha Haddr Hnd r. unfold r, MongodbStorage.updateBalance.
  rewrite Herr, Ha.
  destruct (set_balance_spec assetHash balance index (a_assets a)) as (Hmap & Hin & Hother).
  destruct (existsb _ (a_assets a)) eqn:Hex; cbn [fst snd resolve].
  - apply existsb_asset in Hex.
    split; [done|]. split; [done|]. split; [done|]. split.
    { intros other Hne. unfold MongodbStorage.put_address. simpl.
      rewrite lookup_insert_ne; [done|]. by rewrite Haddr. }
    eexists. split.
    { unfold MongodbStorage.put_address. simpl. rewrite Haddr. apply lookup_insert_eq. }
    simpl. split; [unfold distinct_assets; by rewrite Hmap|]. split; [by apply Hin|].
    by apply Hother.
  - rewrite Hpush.
    assert (assetHash ∉ map e_asset (a_assets a)) as Hnotin.
    { intros Hin'%existsb_asset. congruence. }
    split; [done|]. split; [done|]. split; [done|]. split.
    { intros other Hne. unfold MongodbStorage.put_address. simpl.
      rewrite lookup_insert_ne; [done|]. by rewrite Haddr. }
    eexists. split.
    { unfold MongodbStorage.put_address. simpl. rewrite Haddr. apply lookup_insert_eq. }
    simpl. split.
    { unfold distinct_assets. rewrite map_app. apply NoDup_app. split; [done|].
      split; [|apply NoDup_singleton]. by intros x Hx ->%list_elem_of_singleton. }
    split.
    { eexists. split; [apply elem_of_app; right; by apply list_elem_of_singleton|done]. }
    intros e Hne. rewrite elem_of_app, list_elem_of_singleton. split; [|by left].
    intros [?| ->]; [done|by destruct Hne].
Qed.

Lemma updateBalance_upsert_witness :
  let r := MongodbStorage.updateBalance E0 db_alice "alice" "gas" 12 100 in
  r.1 = Resolved tt
  ∧ blocks r.2 = blocks db_alice ∧ transactions r.2 = transactions db_alice
  ∧ (∀ other, other ≠ "alice" → addresses r.2 !! other = addresses db_alice !! other)
  ∧ ∃ a', addresses r.2 !! "alice" = Some a'
          ∧ distinct_assets (a_assets a')
          ∧ (∃ e, e ∈ a_assets a' ∧ e_asset e = "gas"
                  ∧ e_balance e = 12%float ∧ e_index e = 100)
          ∧ (∀ e, e_asset e ≠ "gas" → e ∈ a_assets a' ↔ e ∈ a_assets alice).
Proof.
  apply (updateBalance_upsert E0 db_alice "alice" "gas" 12 100 alice); try reflexivity.
  apply (bool_decide_unpack _). by vm_compute.
Defined.

Lemma getAssetBalance_result E st d address asset startBlock balance r d' :
  getAssetBalance E st d address asset startBlock balance = (Resolved r, d') →
  e_asset r = asset ∧ e_index r = index st ∧ e_type r = Some "a".
Proof.
  unfold getAssetBalance.
  destruct (MongodbStorage.getAssetListByAddress _ _ _ _ _) as [|res|e]; try done.
  destruct (run_all _ _ _) as [ps d1].
  destruct (Promise_all ps) as [|txs|e]; try done.
  destruct (balancing _ _ _ _) as [bal|]; try done.
  destruct (MongodbStorage.updateBalance _ _ _ _ _ _) as [[|[]|e] d2]; try done.
  by intros [= <- _].
Qed.

Lemma partition_Permutation {A} (P : A → bool) l :
  List.filter (λ x, negb (P x)) l ++ List.filter P l ≡ₚ l.
Proof.
  induction l as [|x l IH]; simpl; [done|].
  destruct (P x); simpl; [|by rewrite IH].
  rewrite <- Permutation_middle. by rewrite IH.
Qed.

(** X12.  For an account record that exists and a positive [blockAge], a
    [getBalance] that resolves returns no entry older than [blockAge]:
    every entry satisfies [currentIndex - entry.index < blockAge].  The
    sheet is on the address asked for and has one entry for each entry of
    the account and each asset found missing, on the same assets. *)
Theorem getBalance_result_fresh E st d address assets_arg blockAge res fuel sheet d1 :
  MongodbStorage.getAddress E d address = Resolved (Some res) →
  getBalance (S fuel) E st d address assets_arg blockAge = Some (Resolved sheet, d1) →
  0 < default 1 blockAge →
  let missing := if decide (length (a_assets res) ≠ length (assets st))
                 then add_missing st res [] else [] in
  s_address sheet = address
  ∧ Forall (λ e, index st - e_index e < default 1 blockAge) (s_assets sheet)
  ∧ map e_asset (s_assets sheet) ≡ₚ map e_asset (a_assets res ++ missing).
Proof.
  intros Hfind Hget Hage missing. simpl in Hget. rewrite Hfind in Hget.
  set (age := default 1 blockAge) in *. unfold getBalance_found in Hget.
  destruct (run_all _ d _) as [ps d'] eqn:Hrun.
  destruct (Promise_all ps) as [|rs|e] eqn:Hall; simplify_eq/=.
  eapply run_all_Resolved in Hrun; [|done].
  assert ((if decide (length (a_assets res) ≠ length (assets st))
           then add_missing st res (List.filter (needs_update st age) (a_assets res))
           else List.filter (needs_update st age) (a_assets res))
          = List.filter (needs_update st age) (a_assets res) ++ missing) as Hparts.
  { unfold missing. case_decide; [apply add_missing_app|by rewrite app_nil_r]. }
  rewrite Hparts in Hrun. clear Hparts.
  assert (Forall (λ r, e_index r = index st) rs ∧
          map e_asset rs
          = map e_asset (List.filter (needs_update st age) (a_assets res) ++ missing))
    as [Hidx Hassets].
  { revert Hrun. generalize (List.filter (needs_update st age) (a_assets res) ++ missing).
    intros l Hrun. clear Hall.
    induction Hrun as [|a r l rs' (d2 & d3 & Hr) _ [IH1 IH2]]; [done|].
    apply getAssetBalance_result in Hr as (Ha & Hi & _). split.
    - by constructor.
    - simpl. by rewrite Ha, IH2. }
  split; [done|]. split.
  - apply Forall_app. split.
    + apply Forall_forall. intros e [_ He]%list_elem_of_In%filter_In.
      apply negb_true_iff, Z.leb_gt in He. done.
    + eapply Forall_impl; [exact Hidx|]. intros r ->. lia.
  - rewrite map_app, Hassets, !map_app, app_assoc, <- map_app.
    by rewrite (partition_Permutation (needs_update st age)).
Qed.

Lemma getBalance_result_fresh_witness :
  ∃ sheet d1,
    getBalance 1 E0 st_100 db_alice "alice" None (Some 10) = Some (Resolved sheet, d1)
    ∧ s_address sheet = "alice"
    ∧ Forall (λ e, 100 - e_index e < 10) (s_assets sheet)
    ∧ map e_asset (s_assets sheet) ≡ₚ map e_asset ([entry_95; entry_89] ++ []).
Proof.
  destruct (getBalance 1 E0 st_100 db_alice "alice" None (Some 10))
    as [[[|sheet|e] d1]|] eqn:Hget; try (by vm_compute in Hget).
  exists sheet, d1. split; [done|].
  apply (getBalance_result_fresh E0 st_100 db_alice "alice" None (Some 10) alice 0 sheet d1);
    first [exact Hget|reflexivity].
Defined.

Lemma run_all_rejected {S A B} (f : S → A → promise B * S) l a e :
  a ∈ l → (∀ s, (f s a).1 = Rejected e) →
  ∀ s, ∃ e', Promise_all (run_all f s l).1 = Rejected e'.
Proof.
  intros Hin Hf. induction l as [|x l IH]; intros s; [by apply elem_of_nil in Hin|].
  simpl. destruct (f s x) as [p s1] eqn:Hfx.
  assert (a ∈ l → ∃ e', Promise_all (run_all f s1 l).1 = Rejected e') as IH'
    by (intros H; apply (IH H s1)).
  clear IH. destruct (run_all f s1 l) as [ps s2]. simpl in *.
  destruct p as [|v|e0].
  - apply elem_of_cons in Hin as [->|Hin].
    { specialize (Hf s). rewrite Hfx in Hf. done. }
    destruct (IH' Hin) as [e' He']. exists e'.
    apply Promise_all_Rejected in He'. by apply Promise_all_Rejected.
  - apply elem_of_cons in Hin as [->|Hin].
    { specialize (Hf s). rewrite Hfx in Hf. done. }
    destruct (IH' Hin) as [e' He']. exists e'.
    apply Promise_all_Rejected in He'. by apply Promise_all_Rejected.
  - exists e0. by apply Promise_all_Rejected.
Qed.

(** X13.  When the account record exists and the recomputation of one of
    its stale entries fails (its transactions cannot be listed),
    [getBalance] neither resolves nor rejects: the promise never settles. *)
Theorem getBalance_recomputation_failure E st d address assets_arg blockAge res fuel a e :
  MongodbStorage.getAddress E d address = Resolved (Some res) →
  a ∈ a_assets res →
  default 1 blockAge ≤ index st - e_index a →
  err_findTXs E address (e_asset a) (e_index a + 1) = Some e →
  ∃ d', getBalance (S fuel) E st d address assets_arg blockAge = Some (Pending, d').
Proof.
  intros Hfind Hin Hstale Herr. simpl. rewrite Hfind. unfold getBalance_found.
  set (parts0 := if decide _ then _ else _).
  assert (a ∈ parts0) as Ha.
  { assert (a ∈ List.filter (needs_update st (default 1 blockAge)) (a_assets res)) as Hf.
    { apply list_elem_of_In, filter_In. split; [by apply list_elem_of_In|].
      by apply Z.leb_le. }
    unfold parts0. case_decide; [|done]. rewrite add_missing_app.
    apply elem_of_app. by left. }
  destruct (run_all_rejected
              (λ d asset, getAssetBalance E st d address (e_asset asset)
                            (Some (e_index asset + 1)) (Some (e_balance asset)))
              parts0 a e Ha) with (s := d) as [e' He'].
  { intros s. unfold getAssetBalance, MongodbStorage.getAssetListByAddress,
      MongodbStorage.callback. simpl. by rewrite Herr. }
  destruct (run_all _ d parts0) as [ps d']. simpl in He'. rewrite He'. by exists d'.
Qed.

Lemma getBalance_recomputation_failure_witness :
  ∃ d', getBalance 1 E_findTXs_fails st_100 db_alice "alice" None (Some 10)
        = Some (Pending, d').
Proof.
  apply (getBalance_recomputation_failure E_findTXs_fails st_100 db_alice "alice"
           None (Some 10) alice 0 entry_89 "connection lost").
  - reflexivity.
  - apply elem_of_cons. right. apply elem_of_cons. by left.
  - vm_compute. discriminate.
  - reflexivity.
Defined.

(** X14.  When the transactions have been listed and expanded but the
    write of the balance fails, [getAssetBalance] never settles: the
    balance it has computed is not returned, and no error is. *)
Theorem getAssetBalance_write_failure E st d address asset startBlock balance res txs d1 e :
  MongodbStorage.getAssetListByAddress E d address asset (default 0 startBlock)
    = Resolved res →
  run_all (getExpandedTX E) d (map tx_txid res) = (map Resolved txs, d1) →
  Forall (λ tx, VUndefined ∉ tx_vin tx) txs →
  err_updateBalance E address asset = Some e →
  getAssetBalance E st d address asset startBlock balance = (Pending, d1).
Proof.
  intros Hlist Hrun Hdef Hupd. unfold getAssetBalance. rewrite Hlist, Hrun.
  rewrite (proj2 (Promise_all_Resolved _ txs)) by done.
  rewrite balancing_running_total by done.
  unfold MongodbStorage.updateBalance. by rewrite Hupd.
Qed.

Lemma getAssetBalance_write_failure_witness :
  getAssetBalance E_updateBalance_fails st_100 db_expanded "alice" "neo" None None
  = (Pending, db_expanded).
Proof.
  apply (getAssetBalance_write_failure E_updateBalance_fails st_100 db_expanded
           "alice" "neo" None None [tx_b; tx_c_expanded] [tx_b; tx_c_expanded]
           db_expanded "write failed"); try reflexivity.
  no_undefined.
Defined.

(** ** The transactions of an address *)




(** ** Ingestion, restart and verification *)

Lemma run_all_save_tx_blocks E blk txs : ∀ d,
  blocks (run_all (save_tx E blk) d txs).2 = blocks d.
Proof.
  induction txs as [|tx txs IH]; intros d; [done|].
  cbn [run_all]. unfold save_tx at 1. cbv beta iota zeta.
  specialize (IH (MongodbStorage.saveTransaction E d (stamp_time (b_time blk) tx)).2).
  destruct (run_all _ _ txs) as [vals d2]. cbn [fst snd] in *. rewrite IH.
  unfold MongodbStorage.saveTransaction. simpl.
  by destruct (match err_saveTX E _ with Some e => Some e | None => _ end).
Qed.

(** A [saveBlock] that resolves has stored the block, on an index that
    was free. *)
Lemma saveBlock_resolved_blocks E st d b p st' d' :
  saveBlock E st d b = (p, st', d') → is_resolved p = true →
  blocks d' = blocks d ++ [MongodbStorage.delintBlock E b]
  ∧ b_index b ∉ map b_index (blocks d).
Proof.
  intros H Hp.
  destruct (saveBlock_resolved_inv _ _ _ _ _ _ _ H Hp)
    as (_ & Hfresh & st1 & d2 & Hfold & _ & ->).
  split; [|done]. rewrite run_all_save_tx_blocks.
  by apply discover_all_db in Hfold as (? & ? & [= <- <-] & -> & _).
Qed.

Lemma ingest_stored E bs : ∀ st d ps st' d',
  ingest E st d bs = (ps, st', d') →
  Forall (λ p, is_resolved p = true) ps →
  map b_index (blocks d') = map b_index (blocks d) ++ map b_index bs
  ∧ (NoDup (map b_index (blocks d)) → NoDup (map b_index (blocks d'))).
Proof.
  induction bs as [|b bs IH]; intros st d ps st' d' Hrun Hres; simpl in Hrun.
  - simplify_eq. by rewrite app_nil_r.
  - destruct (saveBlock E st d b) as [[p st1] d1] eqn:Hsave.
    destruct (ingest E st1 d1 bs) as [[ps' st2] d2] eqn:Hrest. simplify_eq.
    apply Forall_cons in Hres as [Hp Hres].
    destruct (saveBlock_resolved_blocks _ _ _ _ _ _ _ Hsave Hp) as [Hb Hfresh].
    destruct (IH _ _ _ _ _ Hrest Hres) as [Hstored Hnd].
    split.
    + rewrite Hstored, Hb, map_app. simpl. by rewrite <- app_assoc.
    + intros Hnd0. apply Hnd. rewrite Hb, map_app. apply NoDup_app. split; [done|].
      split; [|apply NoDup_singleton]. by intros x Hx ->%list_elem_of_singleton.
Qed.

(** Ingestion into an empty store from the initial chain position. *)
Lemma ingest_from_scratch E st0 d0 bs ps st d' :
  same_chain init st0 → blocks d0 = [] →
  ingest E st0 d0 bs = (ps, st, d') →
  Forall (λ p, is_resolved p = true) ps →
  Forall (λ b, 0 ≤ b_index b) bs →
  map b_index (blocks d') = map b_index bs
  ∧ NoDup (map b_index bs)
  ∧ linked (map b_index bs) st
  ∧ index st + 1 ∉ map b_index bs.
Proof.
  intros (Hi & Hh & Hu) Hd0 Hrun Hres Hpos. simpl in Hi, Hh, Hu.
  destruct (ingest_stored _ _ _ _ _ _ _ Hrun Hres) as [Hstored Hnd].
  rewrite Hd0 in Hstored, Hnd. simpl in Hstored, Hnd.
  rewrite Hstored in Hnd. specialize (Hnd (NoDup_nil_2)).
  split; [done|]. split; [done|].
  apply (ingest_linked E bs st0 d0 [] ps st d'); try done.
  - split; rewrite <- ?Hi, <- ?Hh, <- ?Hu; try done.
    + apply NoDup_nil_2.
    + intros k. split; [by intros ?%elem_of_nil|by intros [?%elem_of_nil _]].
    + intros k ?. lia.
  - by intros ?%elem_of_nil.
Qed.

(** X16.  A restart after an ingestion into an empty store.  Reading the
    chain position back from the store ([getBlockCount] at startup) never
    gives a lower [index] than the one the linker had reached; it gives the
    same exactly when no block was left unlinked, and otherwise an index
    above the first gap. *)
Theorem restart_after_ingest E E' st0 d0 bs ps st d' :
  same_chain init st0 → blocks d0 = [] →
  ingest E st0 d0 bs = (ps, st, d') →
  Forall (λ p, is_resolved p = true) ps →
  Forall (λ b, 0 ≤ b_index b) bs →
  err_findTopBlock E' = None →
  index st ≤ index (startup E' d').2
  ∧ (unlinkedBlocks st = [] ↔ index (startup E' d').2 = index st)
  ∧ blockHeight (startup E' d').2 = index (startup E' d').2 + 1.
Proof.
  intros Hsame Hd0 Hrun Hres Hpos Herr.
  destruct (ingest_from_scratch _ _ _ _ _ _ _ Hsame Hd0 Hrun Hres Hpos)
    as (Hstored & _ & [_ Hun Hbelow Hlow _] & Hnext).
  assert (∀ k, k ∈ map b_index bs → 0 ≤ k) as Hpos'.
  { intros k (b & -> & Hb)%list_elem_of_fmap. rewrite Forall_forall in Hpos. by apply Hpos. }
  unfold startup, getBlockCount, MongodbStorage.getBlockCount. rewrite Herr. simpl.
  destruct (MongodbStorage.findTop (blocks d')) as [t|] eqn:Htop.
  - apply findTop_max in Htop as [Hin Hmax]. simpl.
    assert (b_index t ∈ map b_index bs) as Hseen
      by (rewrite <- Hstored; by apply list_elem_of_fmap_2).
    assert (∀ k, k ∈ map b_index bs → k ≤ b_index t) as Hmax'.
    { intros k. rewrite <- Hstored. intros (b & -> & Hb)%list_elem_of_fmap. by apply Hmax. }
    assert (index st ≤ b_index t) as Hle.
    { destruct (Z.le_gt_cases 0 (index st)) as [H0|H0].
      - apply Hmax', Hbelow. lia.
      - specialize (Hpos' _ Hseen). lia. }
    split; [lia|]. split; [|lia]. split.
    + intros Hnil. destruct (Z.le_gt_cases (b_index t) (index st)); [lia|].
      assert (b_index t ∈ unlinkedBlocks st) as Hin' by (by apply Hun).
      rewrite Hnil in Hin'. by apply elem_of_nil in Hin'.
    + intros Heq. destruct (unlinkedBlocks st) as [|k l] eqn:Hl; [done|].
      assert (k ∈ map b_index bs ∧ index st < k) as [Hk Hlt]
        by (apply Hun; rewrite ?Hl; apply elem_of_cons; by left).
      specialize (Hmax' _ Hk). lia.
  - apply findTop_nil in Htop. simpl.
    assert (map b_index bs = []) as Hnone by (by rewrite <- Hstored, Htop).
    assert (index st = -1) as ->.
    { destruct (Z.le_gt_cases 0 (index st)) as [H0|H0]; [|lia].
      assert (index st ∈ map b_index bs) as Hin by (apply Hbelow; lia).
      rewrite Hnone in Hin. by apply elem_of_nil in Hin. }
    split; [done|]. split; [|done]. split; [done|]. intros _.
    destruct (unlinkedBlocks st) as [|k l] eqn:Hl; [done|].
    assert (k ∈ map b_index bs) as Hk
      by (apply Hun; rewrite ?Hl; apply elem_of_cons; by left).
    rewrite Hnone in Hk. by apply elem_of_nil in Hk.
Qed.

Lemma restart_after_ingest_witness :
  let run := ingest E0 init db0 (map block_at [0; 2]) in
  index run.1.2 ≤ index (startup E0 run.2).2
  ∧ (unlinkedBlocks run.1.2 = [] ↔ index (startup E0 run.2).2 = index run.1.2)
  ∧ blockHeight (startup E0 run.2).2 = index (startup E0 run.2).2 + 1.
Proof.
  apply (restart_after_ingest E0 E0 init db0 (map block_at [0; 2])
           (ingest E0 init db0 (map block_at [0; 2])).1.1); try reflexivity.
  - repeat split.
  - vm_compute. repeat constructor.
  - repeat constructor; vm_compute; discriminate.
Defined.

(** The members of the result of [verifyBlocks], for unique indices. *)
Lemma verifyBlocks_members d start end_ :
  NoDup (map b_index (blocks d)) →
  ∃ missing,
    MongodbStorage.verifyBlocks d start end_ = Some (Resolved missing)
    ∧ ∀ k, k ∈ missing →
        start ≤ k ∧ (k ∉ map b_index (blocks d))
        ∧ (∃ i, i ∈ map b_index (blocks d) ∧ k < i ∧ i ≤ end_).
Proof.
  intros Hnd.
  assert (StronglySorted Z.lt (start - 1 :: MongodbStorage.find_indices d start end_))
    as Hsorted.
  { constructor.
    - apply sorted_nodup_strict.
      + apply StronglySorted_merge_sort; apply _.
      + unfold MongodbStorage.find_indices.
        rewrite merge_sort_Permutation. by apply NoDup_filter.
    - apply Forall_forall. intros i [_ ?]%elem_of_find_indices. lia. }
  destruct (cursor_gaps _ (start - 1) [] Hsorted) as (gaps & Hrun & _ & Hgaps).
  exists gaps. unfold MongodbStorage.verifyBlocks. rewrite Hrun. split; [done|].
  intros k (Hk & Hnot & i & [Hi [? ?]]%elem_of_find_indices & Hki)%Hgaps.
  split; [lia|]. split; [|exists i; split; [done|lia]].
  intros Hin. apply Hnot. apply elem_of_find_indices. split; [done|lia].
Qed.

(** X17.  After an ingestion into an empty store, from the initial chain
    position, by calls that all resolved, [verifyBlocks()] with its default
    range, from 0 to [index], reports no missing block, whatever the order
    of arrival and whatever is still unlinked. *)
Theorem verifyBlocks_after_ingest E st0 d0 bs ps st d' :
  same_chain init st0 → blocks d0 = [] →
  ingest E st0 d0 bs = (ps, st, d') →
  Forall (λ p, is_resolved p = true) ps →
  Forall (λ b, 0 ≤ b_index b) bs →
  verifyBlocks st d' None None = Some (Resolved []).
Proof.
  intros Hsame Hd0 Hrun Hres Hpos.
  destruct (ingest_from_scratch _ _ _ _ _ _ _ Hsame Hd0 Hrun Hres Hpos)
    as (Hstored & Hnd & [_ _ Hbelow _ _] & _).
  unfold verifyBlocks. simpl.
  destruct (verifyBlocks_members d' 0 (index st)) as (missing & -> & Hmem);
    [by rewrite Hstored|].
  destruct missing as [|k l]; [done|].
  destruct (Hmem k) as (Hk & Hnot & i & _ & Hki & Hi); [apply elem_of_cons; by left|].
  destruct Hnot. rewrite Hstored. apply Hbelow. lia.
Qed.

Lemma verifyBlocks_after_ingest_witness :
  let run := ingest E0 init db0 (map block_at [2; 0; 4; 1]) in
  verifyBlocks run.1.2 run.2 None None = Some (Resolved []).
Proof.
  apply (verifyBlocks_after_ingest E0 init db0 (map block_at [2; 0; 4; 1])
           (ingest E0 init db0 (map block_at [2; 0; 4; 1])).1.1); try reflexivity.
  - repeat split.
  - vm_compute. repeat constructor.
  - repeat constructor; vm_compute; discriminate.
Defined.

(** X18.  A range in which no block is stored is reported complete:
    [verifyBlocks(start, end)] resolves with no missing index, although
    every index of the range is missing. *)
Theorem verifyBlocks_empty_range d start end_ :
  (∀ i, i ∈ map b_index (blocks d) → ¬ (start ≤ i ∧ i ≤ end_)) →
  MongodbStorage.verifyBlocks d start end_ = Some (Resolved []).
Proof.
  intros Hnone. unfold MongodbStorage.verifyBlocks.
  destruct (MongodbStorage.find_indices d start end_) as [|i l] eqn:Hfound; [done|].
  assert (i ∈ MongodbStorage.find_indices d start end_) as Hin
    by (rewrite Hfound; apply elem_of_cons; by left).
  apply elem_of_find_indices in Hin as [Hin Hrange]. by destruct (Hnone i Hin).
Qed.

Lemma verifyBlocks_empty_range_witness :
  MongodbStorage.verifyBlocks db_gap 10 20 = Some (Resolved []).
Proof.
  apply (verifyBlocks_empty_range db_gap 10 20).
  intros i Hi [Hlo Hhi]. simpl in Hi.
  repeat (apply elem_of_cons in Hi as [->|Hi]; [lia|]). by apply elem_of_nil in Hi.
Defined.

(** ** Reading blocks back *)

Lemma findTop_snoc_top bs t :
  (∀ b, b ∈ bs → b_index b < b_index t) →
  MongodbStorage.findTop (bs ++ [t]) = Some t.
Proof.
  induction bs as [|b bs IH]; intros Hlt; [done|]. simpl.
  rewrite IH by (intros b' Hb'; apply Hlt, elem_of_cons; by right).
  destruct (Z.ltb_spec (b_index t) (b_index b)) as [H|H]; [|done].
  specialize (Hlt b). rewrite elem_of_cons in Hlt. specialize (Hlt (or_introl eq_refl)). lia.
Qed.

Lemma find_snoc_fresh bs t :
  b_index t ∉ map b_index bs →
  List.find (λ b, bool_decide (b_index b = b_index t)) (bs ++ [t]) = Some t.
Proof.
  induction bs as [|b bs IH]; simpl; intros Hfresh.
  - by rewrite bool_decide_true.
  - apply not_elem_of_cons in Hfresh as [Hne Hfresh].
    rewrite bool_decide_false by congruence. by apply IH.
Qed.

(** X19.  After a [saveBlock] that resolved, [getBlock] on the index of
    the block finds the block as [delintBlock] left it, and so does
    [getBlockByHash] on its normalized hash when no block stored before
    has that hash; and when the index is above every index stored before,
    [getBestBlockHash] resolves with the normalized hash and
    [getBlockCount] with the index plus one. *)
Theorem saveBlock_then_read E R st d b p st' d' :
  saveBlock E st d b = (p, st', d') → is_resolved p = true →
  (err_findBlock R (b_index b) = None →
   getBlock R d' (b_index b) = Resolved (Some (MongodbStorage.delintBlock E b)))
  ∧ (err_findBlockByHash R (normalize E (b_hash b)) = None →
     normalize E (b_hash b) ∉ map b_hash (blocks d) →
     getBlockByHash R d' (normalize E (b_hash b))
     = Resolved (Some (MongodbStorage.delintBlock E b)))
  ∧ ((∀ i, i ∈ map b_index (blocks d) → i < b_index b) →
     (err_findTopHash R = None →
      getBestBlockHash R d' = Resolved (Some (normalize E (b_hash b))))
     ∧ (err_findTopBlock E = None →
        MongodbStorage.getBlockCount E d' = Resolved (b_index b + 1))).
Proof.
  intros H Hp. destruct (saveBlock_resolved_blocks _ _ _ _ _ _ _ H Hp) as [Hb Hfresh].
  split; [|split].
  - intros Herr. unfold getBlock, MongodbStorage.getBlock, MongodbStorage.callback.
    rewrite Herr, Hb. simpl. f_equal.
    by apply (find_snoc_fresh (blocks d) (MongodbStorage.delintBlock E b)).
  - intros Herr Hhash.
    unfold getBlockByHash, MongodbStorage.getBlockByHash, MongodbStorage.callback.
    rewrite Herr, Hb. simpl. f_equal. clear Hb Hfresh.
    induction (blocks d) as [|b0 bs IH]; simpl.
    + by rewrite bool_decide_true.
    + simpl in Hhash. apply not_elem_of_cons in Hhash as [Hne Hhash].
      rewrite bool_decide_false by congruence. by apply IH.
  - intros Htop.
    assert (MongodbStorage.findTop (blocks d') = Some (MongodbStorage.delintBlock E b))
      as Hfind.
    { rewrite Hb. apply findTop_snoc_top.
      intros b' Hb'. simpl. apply Htop. by apply list_elem_of_fmap_2. }
    split; intros Herr.
    + unfold getBestBlockHash, MongodbStorage.getBestBlockHash, MongodbStorage.callback.
      by rewrite Herr, Hfind.
    + unfold MongodbStorage.getBlockCount. by rewrite Herr, Hfind.
Qed.

Lemma saveBlock_then_read_witness :
  let d' := (saveBlock E0 st_ready db0 block_pay).2 in
  getBlock R0 d' 0 = Resolved (Some (MongodbStorage.delintBlock E0 block_pay))
  ∧ getBlockByHash R0 d' "h0" = Resolved (Some (MongodbStorage.delintBlock E0 block_pay))
  ∧ getBestBlockHash R0 d' = Resolved (Some "h0")
  ∧ MongodbStorage.getBlockCount E0 d' = Resolved 1.
Proof.
  intros d'.
  destruct (saveBlock_then_read E0 R0 st_ready db0 block_pay
              (saveBlock E0 st_ready db0 block_pay).1.1
              (saveBlock E0 st_ready db0 block_pay).1.2 d' eq_refl eq_refl)
    as (Hget & Hbyhash & Htop).
  destruct Htop as [Hhash Hcount]; [by intros i ?%elem_of_nil|].
  split; [exact (Hget eq_refl)|].
  split; [apply (Hbyhash eq_refl); by intros ?%elem_of_nil|].
  split; [exact (Hhash eq_refl)|exact (Hcount eq_refl)].
Defined.




(** ** More on the linker and on the balance cache *)

Lemma link_subset fuel st :
  ∀ k, k ∈ unlinkedBlocks (link fuel st) → k ∈ unlinkedBlocks st.
Proof.
  revert st. induction fuel as [|fuel IH]; intros st k; simpl; [done|].
  destruct (indexOf (index st + 1) (unlinkedBlocks st)) as [i|] eqn:Hi; [|done].
  intros Hk%IH. simpl in Hk. apply indexOf_lookup in Hi.
  rewrite (delete_Permutation _ _ _ Hi). apply elem_of_cons. by right.
Qed.

(** X21.  The linker leaves nothing it could link: if [index + 1] is not
    among [unlinkedBlocks] before a [saveBlock], it is not afterwards,
    whatever the block and the outcome; and the only index the call can add
    to [unlinkedBlocks] is that of the block. *)
Theorem saveBlock_settled E st d b p st' d' :
  saveBlock E st d b = (p, st', d') →
  index st + 1 ∉ unlinkedBlocks st →
  (index st' + 1 ∉ unlinkedBlocks st')
  ∧ ∀ k, k ∈ unlinkedBlocks st' → k ∈ unlinkedBlocks st ∨ k = b_index b.
Proof.
  intros (st1 & (Hi & _ & Hu) & [->| ->])%saveBlock_chain Hsettled.
  { rewrite <- Hi, <- Hu. split; [done|]. auto. }
  unfold track. simpl. destruct (index st1 <? b_index b).
  2:{ rewrite <- Hi, <- Hu. split; [done|]. auto. }
  unfold link_blocks.
  set (st2 := {| blockHeight := blockHeight st1; index := index st1;
                 unlinkedBlocks := unlinkedBlocks st1 ++ [b_index b];
                 assets := assets st1; assetsFlat := assetsFlat st1 |}).
  split.
  - apply indexOf_None. by apply link_exit.
  - intros k Hk%link_subset. simpl in Hk. rewrite Hu.
    apply elem_of_app in Hk as [?|?%list_elem_of_singleton]; auto.
Qed.

Lemma saveBlock_settled_witness :
  let st' := (saveBlock E0 st_ready db0 (block_at 3)).1.2 in
  (index st' + 1 ∉ unlinkedBlocks st')
  ∧ ∀ k, k ∈ unlinkedBlocks st' → k ∈ unlinkedBlocks st_ready ∨ k = 3.
Proof.
  apply (saveBlock_settled E0 st_ready db0 (block_at 3)
           (saveBlock E0 st_ready db0 (block_at 3)).1.1 _
           (saveBlock E0 st_ready db0 (block_at 3)).2); [reflexivity|].
  by intros ?%elem_of_nil.
Defined.

Lemma getExpandedTX_addresses E d txid :
  addresses (getExpandedTX E d txid).2 = addresses d.
Proof.
  unfold getExpandedTX.
  destruct (MongodbStorage.getTX E d (Some txid)) as [|[tx|]|e]; try done.
  destruct (Promise_all _) as [|res|e]; try done.
  destruct (mapM _ _) as [vin|]; try done.
  unfold MongodbStorage.updateTransaction.
  by destruct (err_updateTX E (set_vin tx vin)).
Qed.

Lemma run_all_getExpandedTX_addresses E txids : ∀ d,
  addresses (run_all (getExpandedTX E) d txids).2 = addresses d.
Proof.
  induction txids as [|txid txids IH]; intros d; [done|].
  cbn [run_all]. pose proof (getExpandedTX_addresses E d txid) as H1.
  destruct (getExpandedTX E d txid) as [p d1]. specialize (IH d1).
  destruct (run_all _ d1 txids) as [ps d2]. simpl in *. congruence.
Qed.

(** X22.  [getAssetBalance] caches what it returns: when it resolves for
    an address that has an account record (and the push of a new entry
    does not fail), the record then holds an entry on the asset with the
    balance returned and the current index, so that [getBalance] takes it
    as fresh for every positive [blockAge]. *)
Theorem getAssetBalance_caches E st d address asset startBlock balance r d' a :
  getAssetBalance E st d address asset startBlock balance = (Resolved r, d') →
  addresses d !! address = Some a →
  a_address a = address →
  err_pushBalance E address asset = None →
  ∃ a' e, addresses d' !! address = Some a'
          ∧ e ∈ a_assets a'
          ∧ e_asset e = asset ∧ e_balance e = e_balance r ∧ e_index e = index st
          ∧ ∀ blockAge, 0 < blockAge → needs_update st blockAge e = false.
Proof.
  intros H Ha Haddr Hpush. unfold getAssetBalance in H.
  destruct (MongodbStorage.getAssetListByAddress _ _ _ _ _) as [|res|e0]; try done.
  pose proof (run_all_getExpandedTX_addresses E (map tx_txid res) d) as Hd1.
  destruct (run_all _ _ _) as [ps d1]. simpl in Hd1.
  destruct (Promise_all ps) as [|txs|e0]; try done.
  destruct (balancing _ _ _ _) as [bal|]; try done.
  unfold MongodbStorage.updateBalance in H.
  destruct (err_updateBalance E address asset); [done|].
  rewrite Hd1, Ha, Hpush in H.
  assert (∀ e, e_index e = index st → ∀ blockAge, 0 < blockAge →
               needs_update st blockAge e = false) as Hfresh.
  { intros e He blockAge Hage. unfold needs_update. apply Z.leb_gt. lia. }
  destruct (existsb _ (a_assets a)) eqn:Hex; injection H as <- <-.
  - apply existsb_asset in Hex.
    destruct (set_balance_spec asset bal (index st) (a_assets a)) as (_ & Hin & _).
    destruct (Hin Hex) as (e & He & Hasset & Hbal & Hidx).
    eexists _, e. split.
    { unfold MongodbStorage.put_address. simpl. rewrite Haddr. apply lookup_insert_eq. }
    simpl. repeat split; try done. by apply Hfresh.
  - eexists _, _. split.
    { unfold MongodbStorage.put_address. simpl. rewrite Haddr. apply lookup_insert_eq. }
    simpl. split; [apply elem_of_app; right; by apply list_elem_of_singleton|].
    repeat split. by apply Hfresh.
Qed.

Lemma getAssetBalance_caches_witness :
  ∃ a' e, addresses (getAssetBalance E0 st_100 db_alice "alice" "gas" (Some 90) (Some 3%float)).2
            !! "alice" = Some a'
          ∧ e ∈ a_assets a'
          ∧ e_asset e = "gas" ∧ e_balance e = 3%float ∧ e_index e = 100
          ∧ ∀ blockAge, 0 < blockAge → needs_update st_100 blockAge e = false.
Proof.
  apply (getAssetBalance_caches E0 st_100 db_alice "alice" "gas" (Some 90) (Some 3%float)
           {| e_asset := "gas"; e_balance := 3; e_index := 100; e_type := Some "a" |}
           _ alice); reflexivity.
Defined.
